(** * esniper [util.c]: proxy address parser and password obfuscation

    A shallow embedding of [parseProxy], [encryptPassword],
    [decryptPassword] and [clearPassword] of [util.c], with the
    properties the design document states about them. *)

From Stdlib Require Import ZArith List String Ascii Bool Lia.
Import ListNotations.

Local Open Scope Z_scope.

(** ** The C data model

    [strtol] returns a [long]; its width is the one thing in
    [parseProxy] that depends on the platform (the file builds on Unix
    and on WIN32). *)

Inductive data_model := ILP32 | LLP64 | LP64.

Definition long_bits (dm : data_model) : Z :=
  match dm with
  | LP64 => 64
  | ILP32 | LLP64 => 32
  end.

Definition LONG_MAX (dm : data_model) : Z := 2 ^ (long_bits dm - 1) - 1.
Definition LONG_MIN (dm : data_model) : Z := - 2 ^ (long_bits dm - 1).
Definition INT_MAX : Z := 2147483647.
Definition ERANGE : Z := 34.

(** [(int)x] for a [long] [x]: the value modulo [2^32], read as a
    two's-complement 32-bit integer. *)
Definition int_of_long (x : Z) : Z := (x + 2 ^ 31) mod 2 ^ 32 - 2 ^ 31.

(** ** NUL-terminated strings

    A [const char *] is a Rocq [string]: the characters the pointer
    sees, followed by the terminating NUL.  Reading at the end of the
    string yields NUL, and a NUL character inside the Rocq string ends
    the C string there, as it does in memory. *)

Module CStr.
Local Open Scope string_scope.
Local Open Scope Z_scope.

Definition NUL : ascii := "000"%char.

(** [*cp] *)
Definition peek (cp : string) : ascii :=
  match cp with
  | EmptyString => NUL
  | String c _ => c
  end.

(** [cp + 1] *)
Definition next (cp : string) : string :=
  match cp with
  | EmptyString => EmptyString
  | String _ t => t
  end.

(** [cp + n] *)
Fixpoint advance (n : nat) (cp : string) : string :=
  match n with
  | O => cp
  | S n' => advance n' (next cp)
  end.

Definition code (c : ascii) : Z := Z.of_N (N_of_ascii c).

Definition isdigit (c : ascii) : bool := (48 <=? code c) && (code c <=? 57).

Definition isspace (c : ascii) : bool :=
  (code c =? 32) || ((9 <=? code c) && (code c <=? 13)).

Definition tolower (c : ascii) : ascii :=
  if (65 <=? code c) && (code c <=? 90)
  then ascii_of_N (Z.to_N (code c + 32))
  else c.

(** [strncasecmp(s1, s2, n)]: compares at most [n] characters, folded to
    lower case, stopping after a NUL. *)
Fixpoint strncasecmp (s1 s2 : string) (n : nat) : Z :=
  match n with
  | O => 0
  | S n' =>
      let c1 := tolower (peek s1) in
      let c2 := tolower (peek s2) in
      if Ascii.eqb c1 c2
      then if Ascii.eqb c1 NUL then 0 else strncasecmp (next s1) (next s2) n'
      else code c1 - code c2
  end.

(** [strchr(set, c) != NULL] for a non-NUL [c] *)
Fixpoint mem (c : ascii) (set : string) : bool :=
  match set with
  | EmptyString => false
  | String d t => Ascii.eqb c d || mem c t
  end.

(** [strcspn(s, reject)]: length of the initial segment of [s] free of
    the characters of [reject]. *)
Fixpoint strcspn (s reject : string) : nat :=
  match s with
  | EmptyString => O
  | String c t =>
      if Ascii.eqb c NUL || mem c reject then O else S (strcspn t reject)
  end.

(** The first [len] bytes of [s], NUL-terminated: [myStrndup(s, len)]
    ([myMalloc] either returns a buffer or ends the process). *)
Fixpoint myStrndup (s : string) (len : nat) : string :=
  match len with
  | O => EmptyString
  | S len' => String (peek s) (myStrndup (next s) len')
  end.

(** *** [strtol(nptr, &end, 10)] *)

Fixpoint skip_space (s : string) : string :=
  match s with
  | EmptyString => s
  | String c t => if isspace c then skip_space t else s
  end.

(** Accumulates the run of decimal digits at the head of [s]; returns
    the value and the rest of the string. *)
Fixpoint scan_digits (acc : Z) (s : string) : Z * string :=
  match s with
  | EmptyString => (acc, s)
  | String c t =>
      if isdigit c then scan_digits (acc * 10 + (code c - 48)) t else (acc, s)
  end.

Record strtol_result := mkStrtol {
  st_value : Z;            (* the returned long *)
  st_end : option string;  (* what is stored in end; None is a null pointer *)
  st_errno : Z             (* errno after the call, given errno = 0 before *)
}.

Definition strtol (dm : data_model) (nptr : string) : strtol_result :=
  let s := skip_space nptr in
  let neg := Ascii.eqb (peek s) "-" in
  let s := if neg || Ascii.eqb (peek s) "+" then next s else s in
  if isdigit (peek s) then
    let '(v, rest) := scan_digits 0 s in
    let v := if neg then - v else v in
    if LONG_MAX dm <? v then mkStrtol (LONG_MAX dm) (Some rest) ERANGE
    else if v <? LONG_MIN dm then mkStrtol (LONG_MIN dm) (Some rest) ERANGE
    else mkStrtol v (Some rest) 0
  else mkStrtol 0 (Some nptr) 0.

End CStr.

(** ** [parseProxy] *)

Module Proxy.
Import CStr.
Local Open Scope string_scope.
Local Open Scope Z_scope.

(** [proxy_t] of esniper.h: the stored host (a null pointer when the
    proxy is disabled) and port. *)
Record proxy_t := mkProxy {
  host : option string;
  port : Z
}.

(** The two nested switches on [*cp] that follow the host: the value is
    [None] where the code executes [return 1], and otherwise the port
    that reaches the stores at the end of the function. *)
Definition after_port (cp' : string) (port' : Z) : option Z :=
  let c := peek cp' in
  if Ascii.eqb c "/" then
    if Ascii.eqb (peek (next cp')) NUL then Some port' else None
  else if Ascii.eqb c NUL then Some port'
  else None.

Definition after_host (dm : data_model) (cp : string) (port0 : Z) : option Z :=
  let c := peek cp in
  if Ascii.eqb c ":" then
    let cp := next cp in                                  (* *++cp *)
    if isdigit (peek cp) then
      let r := strtol dm cp in
      let port' := int_of_long (st_value r) in
      match st_end r with
      | Some e => if negb (st_errno r =? 0) then None else after_port e port'
      | None => None
      end
    else after_port cp port0
  else if Ascii.eqb c "/" then
    if Ascii.eqb (peek (next cp)) NUL then Some port0 else None
  else if Ascii.eqb c NUL then Some port0
  else None.

(** The body of [parseProxy] once [cp] stands after the optional
    [http://]: returns the function's return value (0 parsed, 1 error)
    and the contents of [*proxy] afterwards. *)
Definition parse_host_port (dm : data_model) (cp : string) (proxy : proxy_t)
  : Z * proxy_t :=
  let len := strcspn cp ":/" in
  if Nat.eqb len 0 then (0, mkProxy None (port proxy))
  else
    let host' := cp in
    let cp := advance len cp in
    match after_host dm cp 80 with
    | None => (1, proxy)
    | Some port' => (0, mkProxy (Some (myStrndup host' len)) port')
    end.

Definition parseProxy (dm : data_model) (value : option string) (proxy : proxy_t)
  : Z * proxy_t :=
  match value with
  | None => (0, mkProxy None (port proxy))
  | Some cp =>
      let cp := if strncasecmp cp "http://" 7 =? 0 then advance 7 cp else cp in
      parse_host_port dm cp proxy
  end.

End Proxy.

(** ** Password obfuscation *)

Module Guard.

(** A heap block of [char]s, each held as its byte value. *)
Definition buffer := list Z.

(** [(char)x]: the low eight bits. *)
Definition to_char (x : Z) : Z := x mod 256.

(** [strlen] of the string held in a block; [None] when the block holds
    no NUL, where the C function reads beyond it. *)
Fixpoint strlen (b : buffer) : option nat :=
  match b with
  | [] => None
  | c :: t => if c =? 0 then Some O else option_map S (strlen t)
  end.

(** [b[i]] and [b[i] = v]; [None] outside the block. *)
Definition load (b : buffer) (i : nat) : option Z := nth_error b i.

Definition store (b : buffer) (i : nat) (v : Z) : option buffer :=
  if Nat.ltb i (List.length b) then Some (firstn i b ++ v :: skipn (S i) b) else None.

(** [options.password], [options.encrypted] and the three statics of
    util.c, together with the state of libc's generator and the blocks
    handed to [free], newest first, with the contents they had then. *)
Record state := mkState {
  password : option buffer;
  encrypted : Z;
  passwordPad : option buffer;
  passwordLen : nat;
  needSeed : Z;
  rand_seed : Z;
  rand_count : nat;
  released : list buffer
}.

Definition initial : state :=
  mkState None 0 None 0 1 1 0 [].

Definition set_password (v : option buffer) (s : state) : state :=
  mkState v (encrypted s) (passwordPad s) (passwordLen s)
          (needSeed s) (rand_seed s) (rand_count s) (released s).

Definition set_encrypted (v : Z) (s : state) : state :=
  mkState (password s) v (passwordPad s) (passwordLen s)
          (needSeed s) (rand_seed s) (rand_count s) (released s).

Definition set_passwordPad (v : option buffer) (s : state) : state :=
  mkState (password s) (encrypted s) v (passwordLen s)
          (needSeed s) (rand_seed s) (rand_count s) (released s).

Definition set_passwordLen (v : nat) (s : state) : state :=
  mkState (password s) (encrypted s) (passwordPad s) v
          (needSeed s) (rand_seed s) (rand_count s) (released s).

(** [free(p)]: nothing for a null pointer. *)
Definition free (p : option buffer) (s : state) : state :=
  match p with
  | None => s
  | Some b =>
      mkState (password s) (encrypted s) (passwordPad s) (passwordLen s)
              (needSeed s) (rand_seed s) (rand_count s) (b :: released s)
  end.

(** Computations on the state that stop at an access outside a block or
    through a null pointer. *)
Definition M (A : Type) : Type := state -> option (A * state).

Definition ret {A} (a : A) : M A := fun s => Some (a, s).

Definition bind {A B} (m : M A) (k : A -> M B) : M B :=
  fun s => match m s with
           | Some (a, s') => k a s'
           | None => None
           end.

Definition get {A} (f : state -> A) : M A := fun s => Some (f s, s).
Definition modify (f : state -> state) : M unit := fun s => Some (tt, f s).

Notation "x <- m ;; k" := (bind m (fun x => k))
  (at level 61, m at next level, right associativity).
Notation "m ;;; k" := (bind m (fun _ => k))
  (at level 61, right associativity).

(** [for (i = 0; i < n; ++i) body], for a bound [n] the body leaves
    alone; the counter is an [int], and lengths are taken to fit one. *)
Fixpoint for_loop (n i : nat) (body : nat -> M unit) : M unit :=
  match n with
  | O => ret tt
  | S n' => body i ;;; for_loop n' (S i) body
  end.

Definition load_password (i : nat) : M Z :=
  fun s => match password s with
           | Some b => option_map (fun v => (v, s)) (load b i)
           | None => None
           end.

Definition store_password (i : nat) (v : Z) : M unit :=
  fun s => match password s with
           | Some b => option_map (fun b' => (tt, set_password (Some b') s)) (store b i v)
           | None => None
           end.

Definition load_pad (i : nat) : M Z :=
  fun s => match passwordPad s with
           | Some b => option_map (fun v => (v, s)) (load b i)
           | None => None
           end.

Definition store_pad (i : nat) (v : Z) : M unit :=
  fun s => match passwordPad s with
           | Some b => option_map (fun b' => (tt, set_passwordPad (Some b') s)) (store b i v)
           | None => None
           end.

Definition strlen_password : M nat :=
  fun s => match password s with
           | Some b => option_map (fun n => (n, s)) (strlen b)
           | None => None
           end.

(** [options.password[i] ^= passwordPad[i]] *)
Definition xor_body (i : nat) : M unit :=
  c <- load_password i ;; k <- load_pad i ;; store_password i (Z.lxor c k).

Section Libc.

(** [random_seq seed n]: the value of the [n]-th call of [random()]
    after [srandom(seed)]; [getpid] and [time0] are what [getpid()] and
    [time(0)] return when the generator is seeded. *)
Variable random_seq : Z -> nat -> Z.
Variable getpid : Z.
Variable time0 : Z.

Definition random : M Z :=
  fun s => Some (random_seq (rand_seed s) (rand_count s),
                 mkState (password s) (encrypted s) (passwordPad s) (passwordLen s)
                         (needSeed s) (rand_seed s) (S (rand_count s)) (released s)).

Definition srandom (seed : Z) : M unit :=
  modify (fun s =>
            mkState (password s) (encrypted s) (passwordPad s) (passwordLen s)
                    (needSeed s) seed 0 (released s)).

Definition seedPasswordRandom : M unit :=
  need <- get needSeed ;;
  if negb (need =? 0) then
    srandom ((getpid * time0) mod 2 ^ 32) ;;;
    modify (fun s =>
              mkState (password s) (encrypted s) (passwordPad s) (passwordLen s)
                      0 (rand_seed s) (rand_count s) (released s))
  else ret tt.

(** [options.password[i] = (char)random(); passwordPad[i] = (char)random();] *)
Definition clear_body (i : nat) : M unit :=
  r <- random ;; store_password i (to_char r) ;;;
  r <- random ;; store_pad i (to_char r).

(** [passwordPad[i] = (char)random()] *)
Definition pad_body (i : nat) : M unit :=
  r <- random ;; store_pad i (to_char r).

Definition clearPassword : M unit :=
  seedPasswordRandom ;;;
  len <- get passwordLen ;;
  for_loop len 0 clear_body ;;;
  p <- get password ;; modify (free p) ;;;
  modify (set_password None) ;;;
  p <- get passwordPad ;; modify (free p) ;;;
  modify (set_passwordPad None) ;;;
  modify (set_passwordLen 0).

Definition is_null {A} (p : option A) : bool :=
  match p with None => true | Some _ => false end.

(** [myMalloc(n)]: a block of [n] bytes (or the process ends); its
    contents are indeterminate, and every byte is written before it is
    read. *)
Definition myMalloc (n : nat) : buffer := repeat 0 n.

Definition encryptPassword : M unit :=
  e <- get encrypted ;; p <- get password ;;
  if negb (e =? 0) || is_null p then ret tt else
  seedPasswordRandom ;;;
  pad <- get passwordPad ;;
  (if is_null pad then
     n <- strlen_password ;;
     modify (set_passwordLen (n + 1)) ;;;
     len <- get passwordLen ;;
     modify (set_passwordPad (Some (myMalloc len))) ;;;
     for_loop len 0 pad_body
   else ret tt) ;;;
  len <- get passwordLen ;;
  for_loop len 0 xor_body ;;;
  modify (set_encrypted 1).

Definition decryptPassword : M unit :=
  e <- get encrypted ;; p <- get password ;; pad <- get passwordPad ;;
  if (e =? 0) || is_null p || is_null pad then ret tt else
  len <- get passwordLen ;;
  for_loop len 0 xor_body ;;;
  modify (set_encrypted 0).

(** The state a call leaves, [None] when it faults. *)
Definition run (m : M unit) (s : state) : option state :=
  option_map snd (m s).

End Libc.

End Guard.

(** ** String helpers and [boolValue] *)

Module Util.
Import CStr.
Local Open Scope string_scope.
Local Open Scope Z_scope.

(** The string a pointer denotes, as [%s] and [strcmp] read it: the
    characters before the first NUL. *)
Fixpoint cstr (s : string) : string :=
  match s with
  | EmptyString => EmptyString
  | String c t => if Ascii.eqb c NUL then EmptyString else String c (cstr t)
  end.

(** [strlen(s)] *)
Fixpoint strlen (s : string) : nat :=
  match s with
  | EmptyString => O
  | String c t => if Ascii.eqb c NUL then O else S (strlen t)
  end.

(** [myStrdup(s)]: a null pointer for a null pointer, and otherwise a
    new block holding the [strlen(s)] bytes of [s] and a terminator. *)
Definition myStrdup (s : option string) : option string :=
  match s with
  | None => None
  | Some s => Some (myStrndup s (strlen s))
  end.

(** [strcmp(s1, s2)] *)
Fixpoint strcmp (s1 s2 : string) : Z :=
  match s1 with
  | EmptyString => code NUL - code (peek s2)
  | String c1 t1 =>
      if Ascii.eqb c1 (peek s2)
      then if Ascii.eqb c1 NUL then 0 else strcmp t1 (next s2)
      else code c1 - code (peek s2)
  end.

(** The table of [boolValue], without the null pointer that ends it. *)
Definition boolvalues : list string :=
  ["0"; "1"; "n"; "y"; "no"; "yes"; "off"; "on";
   "false"; "true"; "disabled"; "enabled"].

(** [for (i = 0; buf[i]; ++i) buf[i] = (char)tolower((int)(buf[i]));] *)
Fixpoint lower_loop (buf : string) : string :=
  match buf with
  | EmptyString => buf
  | String c t => if Ascii.eqb c NUL then buf else String (tolower c) (lower_loop t)
  end.

(** [for (i = 0; boolvalues[i]; i++) if (!strcmp(buf, boolvalues[i])) break;]
    started at [i] with the entries from [i] on; returns the final [i]. *)
Fixpoint find_loop (buf : string) (entries : list string) (i : nat) : nat :=
  match entries with
  | [] => i
  | w :: rest => if strcmp buf w =? 0 then i else find_loop buf rest (S i)
  end.

Definition boolValue (value : option string) : Z :=
  match myStrdup value with
  | None => 1
  | Some buf =>
      let buf := lower_loop buf in
      let i := find_loop buf boolvalues 0 in
      match nth_error boolvalues i with
      | Some _ => Z.of_nat i mod 2
      | None => -1
      end
  end.

End Util.

(** ** Input, log and time helpers *)

Module Io.
Import CStr Util.
Local Open Scope string_scope.
Local Open Scope Z_scope.

Definition EOF : Z := -1.

(** [getc(fp)] on a stream given by the bytes still to be read: the
    next byte as an [unsigned char], or [EOF] when none is left. *)
Definition getc (fp : string) : Z * string :=
  match fp with
  | EmptyString => (EOF, fp)
  | String c t => (code c, t)
  end.

(** [skipline(fp)]: the loop calls [getc] until it returns [EOF] or a
    newline; the value is the last one read, with the stream after
    it. *)
Fixpoint skipline (fp : string) : Z * string :=
  match fp with
  | EmptyString => getc fp
  | String c t =>
      let '(v, rest) := getc fp in
      if negb (v =? EOF) && negb (v =? code "010") then skipline t else (v, rest)
  end.

(** [sprintf(ret, "%s...%s", ...)] into a block of [size] bytes: the
    strings one after the other and a terminator, or [None] when that
    is more than the block holds. *)
Definition sprintf (size : nat) (args : list string) : option string :=
  let out := fold_right append "" (map cstr args) in
  if Nat.leb (String.length out + 1) size then Some out else None.

Definition myStrdup2 (s1 s2 : string) : option string :=
  sprintf (strlen s1 + strlen s2 + 1) [s1; s2].

Definition myStrdup3 (s1 s2 s3 : string) : option string :=
  sprintf (strlen s1 + strlen s2 + strlen s3 + 1) [s1; s2; s3].

Definition myStrdup4 (s1 s2 s3 s4 : string) : option string :=
  sprintf (strlen s1 + strlen s2 + strlen s3 + strlen s4 + 1) [s1; s2; s3; s4].

(** The log: the file [logfile] points to, if any, with the files
    closed and the lines sent to [stderr] so far, newest first. *)
Record log_state := mkLog {
  logfile : option string;
  closed : list string;
  stderr_out : list string
}.

Definition logClose (s : log_state) : log_state :=
  match logfile s with
  | Some f => mkLog None (f :: closed s) (stderr_out s)
  | None => s
  end.

Section Log.

(** [fopen(name, "a")] succeeds on the names [writable] accepts, and
    [open_error name] is the text of [strerror(errno)] when it fails. *)
Variable writable : string -> bool.
Variable open_error : string -> string.

(** [aip] is a null pointer or gives the [auction] field of the
    structure it points to; [logdir] may be a null pointer. *)
Definition logfilename (progname : string) (aip logdir : option string) : option string :=
  match (match aip with
         | None => myStrdup2 progname ".log"
         | Some auction => myStrdup4 progname "." auction ".log"
         end) with
  | None => None
  | Some name =>
      match logdir with
      | Some dir => myStrdup3 dir "/" name
      | None => Some name
      end
  end.

(** [None] stands for a [sprintf] beyond its block. *)
Definition logOpen (progname : string) (aip logdir : option string) (s : log_state)
  : option log_state :=
  match logfilename progname aip logdir with
  | None => None
  | Some name =>
      let s := logClose s in
      Some (if writable name
            then mkLog (Some name) (closed s) (stderr_out s)
            else mkLog None (closed s)
                   (("Unable to open log file " ++ name ++ ": " ++ open_error name
                     ++ String "010" "") :: stderr_out s))
  end.

End Log.

(** [timestamp()]: the static buffer and the time it was last filled
    for; [strftime_c t] is what [strftime] writes for ["%c"] and
    [localtime] of [t], and [now] what [time(0)] returns. *)
Record stamp_state := mkStamp {
  buf : string;
  saveTime : Z
}.

Definition stamp_initial : stamp_state := mkStamp "" 0.

Section Timestamp.
Variable strftime_c : Z -> string.

Definition timestamp (now : Z) (s : stamp_state) : string * stamp_state :=
  let s := if negb (now =? saveTime s) then mkStamp (strftime_c now) now else s in
  (buf s, s).

End Timestamp.

End Io.

(** ** [basename] and [dirname] *)

Module Path.
Import CStr.

(** The bytes of [name] up to its terminator, which is implicit; a
    NUL among them ends the string there. *)
Definition chars := list ascii.

(** A [char *] result: a null pointer, a string literal, or a pointer
    into [name] at an offset. *)
Inductive pointer :=
| Null
| Literal (s : string)
| Name (offset : nat).

Fixpoint strlen (b : chars) : nat :=
  match b with
  | [] => O
  | c :: t => if Ascii.eqb c NUL then O else S (strlen t)
  end.

(** [name[j]] and [name[j] = v] *)
Definition at_index (b : chars) (j : nat) : ascii := nth j b NUL.
Definition put (b : chars) (j : nat) (v : ascii) : chars :=
  firstn j b ++ v :: skipn (S j) b.

(** [*cp == '/' || *cp == '\\'], the test compiled under [__CYGWIN__]
    and [WIN32], the only builds that contain these functions. *)
Definition is_sep (c : ascii) : bool := Ascii.eqb c "/" || Ascii.eqb c "\".

(** The loop that puts a NUL over each trailing separator, [cp] going
    down while [cp >= name] and [*cp] is a separator; with
    [cp = name + i - 1], it returns the buffer and the final [i]. *)
Fixpoint strip_loop (i : nat) (b : chars) : chars * nat :=
  match i with
  | O => (b, O)
  | S j => if is_sep (at_index b j) then strip_loop j (put b j NUL) else (b, i)
  end.

(** The loop with the empty body, [cp] going down while [cp >= name]
    and [*cp] is not a separator; with [cp = name + i - 1]. *)
Fixpoint scan_loop (i : nat) (b : chars) : nat :=
  match i with
  | O => O
  | S j => if negb (is_sep (at_index b j)) then scan_loop j b else i
  end.

(** Both functions return the pointer and leave [name] as the second
    component. *)
Definition basename (name : option chars) : pointer * option chars :=
  match name with
  | None => (Null, None)
  | Some b =>
      let len := strlen b in
      if Nat.eqb len 0 then (Literal ".", Some b) else
      let cp := len in
      if is_sep (at_index b (cp - 1)) then
        let '(b', cp') := strip_loop cp b in
        if Nat.eqb cp' 0 then (Literal "/", Some b')
        else (Name (scan_loop cp' b'), Some b')
      else (Name (scan_loop cp b), Some b)
  end.

Definition dirname_tail (cp : nat) (b : chars) : pointer * option chars :=
  let cp := scan_loop cp b in
  if Nat.eqb cp 0 then (Literal ".", Some b)
  else if Nat.eqb cp 1 then (Literal "/", Some b)
  else (Name 0, Some (put b (cp - 1) NUL)).

Definition dirname (name : option chars) : pointer * option chars :=
  match name with
  | None => (Null, None)
  | Some b =>
      let len := strlen b in
      if Nat.eqb len 0 then (Literal ".", Some b) else
      let cp := len in
      if is_sep (at_index b (cp - 1)) then
        let '(b', cp') := strip_loop cp b in
        if Nat.leb cp' 1 then (Literal "/", Some b')
        else dirname_tail cp' b'
      else dirname_tail cp b
  end.

End Path.

(** * Vocabulary of the statements *)

Module ProxySpec.
Import CStr Proxy.
Local Open Scope string_scope.
Local Open Scope Z_scope.

Fixpoint all_chars (f : ascii -> bool) (s : string) : bool :=
  match s with
  | EmptyString => true
  | String c t => f c && all_chars f t
  end.

(** A character a host may contain: any but [:], [/] and the
    terminator. *)
Definition host_char (c : ascii) : bool :=
  negb (Ascii.eqb c NUL || Ascii.eqb c ":" || Ascii.eqb c "/").

(** [host] of the grammar: one or more characters excluding [:] and [/]. *)
Definition is_host (h : string) : bool :=
  negb (String.eqb h "") && all_chars host_char h.

(** [port] of the grammar: one or more decimal digits. *)
Definition is_port (d : string) : bool :=
  negb (String.eqb d "") && all_chars isdigit d.

(** The number a string of digits denotes in base ten. *)
Fixpoint decimal (d : string) : Z :=
  match d with
  | EmptyString => 0
  | String c t => (code c - 48) * 10 ^ Z.of_nat (String.length t) + decimal t
  end.

(** The optional scheme in front of the host: absent, or [http://] with
    each letter in either case. *)
Inductive scheme :=
| NoScheme
| Http (u0 u1 u2 u3 : bool).

Definition scheme_text (sc : scheme) : string :=
  match sc with
  | NoScheme => ""
  | Http u0 u1 u2 u3 =>
      String (if u0 then "H" else "h")%char
     (String (if u1 then "T" else "t")%char
     (String (if u2 then "T" else "t")%char
     (String (if u3 then "P" else "p")%char "://")))
  end.

(** [t] begins with two slashes. *)
Definition dslash (t : string) : bool :=
  Ascii.eqb (peek t) "/" && Ascii.eqb (peek (next t)) "/".

(** A stored proxy used in the examples. *)
Definition stored : proxy_t := mkProxy (Some "old.example.org") 3128.

End ProxySpec.

Module GuardSpec.
Import Guard.

(** [b] with its first [n] bytes XORed with those of [pad]. *)
Fixpoint xor_prefix (n : nat) (b pad : buffer) : buffer :=
  match n, b, pad with
  | S n', c :: b', k :: pad' => Z.lxor c k :: xor_prefix n' b' pad'
  | _, _, _ => b
  end.

(** The password behind the buffer: the buffer itself, or the buffer
    with the pad taken off while it is marked obfuscated. *)
Definition plaintext (s : state) : option buffer :=
  match password s with
  | None => None
  | Some b =>
      Some (if encrypted s =? 0 then b
            else match passwordPad s with
                 | Some p => xor_prefix (passwordLen s) b p
                 | None => b
                 end)
  end.

(** The module invariant: the pad is present exactly when the stored
    length is positive and is that long; a positive length comes with a
    secret buffer at least that long; and the password is a string whose
    [strlen] plus one is the stored length, when that is positive. *)
Record consistent (s : state) : Prop := mkConsistent {
  pad_iff_len : passwordPad s = None <-> passwordLen s = O;
  pad_length : forall p, passwordPad s = Some p -> List.length p = passwordLen s;
  secret_present : passwordLen s <> O -> password s <> None;
  secret_length : forall b, password s = Some b -> (passwordLen s <= List.length b)%nat;
  secret_string : forall b, plaintext s = Some b ->
    exists n, strlen b = Some n /\ (passwordLen s <> O -> passwordLen s = S n)
}.

Section Draws.
Variable random_seq : Z -> nat -> Z.

(** [n] successive values of [(char)random()], from call number
    [count] after [srandom(seed)], taking every [stride]-th call. *)
Fixpoint draws (seed : Z) (stride count n : nat) : buffer :=
  match n with
  | O => []
  | S n' => to_char (random_seq seed count) :: draws seed stride (stride + count) n'
  end.

End Draws.

(** The block a call of [free] releases, if any. *)
Definition freed (p : option buffer) : list buffer :=
  match p with Some b => [b] | None => [] end.

(** The state of the generator once [seedPasswordRandom] has run. *)
Definition seeded (getpid time0 : Z) (s : state) : state :=
  if negb (needSeed s =? 0)
  then mkState (password s) (encrypted s) (passwordPad s) (passwordLen s)
               0 ((getpid * time0) mod 2 ^ 32) 0 (released s)
  else s.

(** Modelled from the spec: the credential-loading collaborator, which
    is outside util.c, supplies the secret as a string; it leaves a
    plaintext buffer in [options.password], marked not obfuscated. *)
Definition supplyPassword (b : buffer) (s : state) : state :=
  set_encrypted 0 (set_password (Some b) s).

Section Reachable.
Variable random_seq : Z -> nat -> Z.
Variables getpid time0 : Z.

(** The states the module goes through: the three operations, and a
    password supplied while no pad is stored. *)
Inductive reachable : state -> Prop :=
| reach_initial : reachable initial
| reach_supply (s : state) (b : buffer) (n : nat) :
    reachable s -> passwordPad s = None -> strlen b = Some n ->
    reachable (supplyPassword b s)
| reach_encrypt (s s' : state) :
    reachable s -> run (encryptPassword random_seq getpid time0) s = Some s' ->
    reachable s'
| reach_decrypt (s s' : state) :
    reachable s -> run decryptPassword s = Some s' -> reachable s'
| reach_clear (s s' : state) :
    reachable s -> run (clearPassword random_seq getpid time0) s = Some s' ->
    reachable s'.

End Reachable.

(** A generator, a process id and a time for the examples. *)
Definition sample_seq (seed : Z) (n : nat) : Z :=
  (seed * 31 + Z.of_nat n * 1103515245 + 12345) mod 2147483648.
Definition sample_pid : Z := 4242.
Definition sample_time : Z := 1000.

(** ["sec"] and ["hello!"], as strings in memory. *)
Definition sec : buffer := [115; 101; 99; 0].
Definition hello : buffer := [104; 101; 108; 108; 111; 33; 0].

(** ["sec"] supplied and not yet obfuscated; obfuscated; and revealed
    again. *)
Definition supplied : state := supplyPassword sec initial.
Definition obfuscated : state :=
  mkState (Some [154; 51; 160; 48]) 1 (Some [233; 86; 195; 48]) 4 0 4242000 4 [].
Definition revealed : state :=
  mkState (Some sec) 0 (Some [233; 86; 195; 48]) 4 0 4242000 4 [].

End GuardSpec.

Module GrammarSpec.
Import CStr Proxy ProxySpec.
Local Open Scope string_scope.
Local Open Scope Z_scope.

(** The content of a C string: no character of it is the terminator. *)
Definition no_nul (s : string) : bool :=
  all_chars (fun c => negb (Ascii.eqb c NUL)) s.

(** What may follow the host, and the port it yields. *)
Inductive tail_port (dm : data_model) : string -> Z -> Prop :=
| tail_empty : tail_port dm "" 80
| tail_slash : tail_port dm "/" 80
| tail_colon : tail_port dm ":" 80
| tail_colon_slash : tail_port dm ":/" 80
| tail_digits (d : string) :
    is_port d = true -> decimal d <= LONG_MAX dm ->
    tail_port dm (":" ++ d) (int_of_long (decimal d))
| tail_digits_slash (d : string) :
    is_port d = true -> decimal d <= LONG_MAX dm ->
    tail_port dm (":" ++ d ++ "/") (int_of_long (decimal d)).

End GrammarSpec.

Module UtilSpec.
Import CStr Util.
Local Open Scope string_scope.

(** [s] with its upper-case letters folded to lower case. *)
Fixpoint lowercase (s : string) : string :=
  match s with
  | EmptyString => EmptyString
  | String c t => String (tolower c) (lowercase t)
  end.

Definition truthy : list string := ["1"; "y"; "yes"; "on"; "true"; "enabled"].
Definition falsy : list string := ["0"; "n"; "no"; "off"; "false"; "disabled"].
Definition member (s : string) (l : list string) : bool := existsb (String.eqb s) l.

End UtilSpec.

Module IoSpec.
Import CStr Util Io.
Local Open Scope string_scope.
Local Open Scope Z_scope.

Definition newline : ascii := "010"%char.
Definition no_newline (s : string) : bool :=
  ProxySpec.all_chars (fun c => negb (Ascii.eqb c newline)) s.

(** The buffer of [timestamp] holds the text for the time it records. *)
Definition cache_ok (strftime_c : Z -> string) (s : stamp_state) : Prop :=
  saveTime s <> 0 -> buf s = strftime_c (saveTime s).

(** The name [logOpen] gives the log file. *)
Definition log_name (progname : string) (aip logdir : option string) : string :=
  match logdir with Some dir => cstr dir ++ "/" | None => "" end
  ++ cstr progname
  ++ match aip with Some auction => "." ++ cstr auction | None => "" end
  ++ ".log".

(** A clock text for the examples. *)
Definition sample_clock (t : Z) : string := "Thu Jan  1 00:00:01 1970".

End IoSpec.

Module PathSpec.
Import CStr Path.

(** The string a result points to. *)
Fixpoint cstr (b : chars) : chars :=
  match b with
  | [] => []
  | c :: t => if Ascii.eqb c NUL then [] else c :: cstr t
  end.

Definition pointee (r : pointer * option chars) : option string :=
  match r with
  | (Null, _) => None
  | (Literal s, _) => Some s
  | (Name k, Some b) => Some (string_of_list_ascii (cstr (skipn k b)))
  | (Name _, None) => None
  end.

Definition path (s : string) : option chars := Some (list_ascii_of_string s).

(** What [name] holds as a string after the call. *)
Definition name_after (r : pointer * option chars) : option string :=
  option_map (fun b => string_of_list_ascii (cstr b)) (snd r).

Definition no_nul (l : chars) : bool := forallb (fun c => negb (Ascii.eqb c NUL)) l.
Definition all_sep (l : chars) : bool := forallb is_sep l.
Definition no_sep (l : chars) : bool := forallb (fun c => negb (is_sep c)) l.

(** [l] is empty or ends with a separator. *)
Definition ends_sep (l : chars) : bool := is_sep (last l "/"%char).

Definition chars_of (s : string) : chars := list_ascii_of_string s.

End PathSpec.

Module ToggleSpec.
Import Guard GuardSpec.
Local Open Scope Z_scope.

(** A call of [encryptPassword] or of [decryptPassword]. *)
Inductive toggle := Protect | Reveal.

Section Toggles.
Variable random_seq : Z -> nat -> Z.
Variables getpid time0 : Z.

Definition run_toggle (t : toggle) : state -> option state :=
  match t with
  | Protect => run (encryptPassword random_seq getpid time0)
  | Reveal => run decryptPassword
  end.

(** The calls of a list, one after the other. *)
Fixpoint run_toggles (ts : list toggle) (s : state) : option state :=
  match ts with
  | [] => Some s
  | t :: ts' =>
      match run_toggle t s with
      | Some s' => run_toggles ts' s'
      | None => None
      end
  end.

End Toggles.

(** ["hi"] in a block of three bytes, put where ["sec"] was while the
    pad and the length of ["sec"] are still stored. *)
Definition short_state : state := set_password (Some [104; 105; 0]) revealed.

End ToggleSpec.

(** * Properties of the string primitives *)

Module CStrFacts.
Import CStr.
Local Open Scope string_scope.
Local Open Scope Z_scope.

Lemma code_inj (a b : ascii) : code a = code b -> a = b.
Proof.
  unfold code. intros H. apply N2Z.inj in H.
  rewrite <- (ascii_N_embedding a), <- (ascii_N_embedding b). now rewrite H.
Qed.

Lemma code_diff (a b : ascii) : Ascii.eqb a b = false -> code a - code b <> 0.
Proof.
  intros H E. apply Ascii.eqb_neq in H. apply H, code_inj. lia.
Qed.

(** Case folding leaves the two delimiters alone. *)
Lemma ci_colon (c : ascii) : Ascii.eqb (tolower c) ":" = Ascii.eqb c ":".
Proof. destruct c as [[] [] [] [] [] [] [] []]; reflexivity. Qed.

Lemma ci_slash (c : ascii) : Ascii.eqb (tolower c) "/" = Ascii.eqb c "/".
Proof. destruct c as [[] [] [] [] [] [] [] []]; reflexivity. Qed.

Lemma peek_app_cons (h : string) (c : ascii) (t : string) :
  h <> "" -> peek (h ++ String c t) = peek h.
Proof. destruct h; simpl; congruence. Qed.

Lemma advance_app (h r : string) : advance (String.length h) (h ++ r) = r.
Proof. induction h; simpl; auto. Qed.

Lemma myStrndup_app (h r : string) : myStrndup (h ++ r) (String.length h) = h.
Proof. induction h; simpl; auto. now rewrite IHh. Qed.

(** Zero test of [strncasecmp], one character at a time. *)
Lemma strncasecmp_step (s1 s2 : string) (n : nat) :
  (strncasecmp s1 s2 (S n) =? 0) =
  Ascii.eqb (tolower (peek s1)) (tolower (peek s2)) &&
  (Ascii.eqb (tolower (peek s1)) NUL || (strncasecmp (next s1) (next s2) n =? 0)).
Proof.
  simpl. destruct (Ascii.eqb (tolower (peek s1)) (tolower (peek s2))) eqn:E; simpl.
  - destruct (Ascii.eqb (tolower (peek s1)) NUL); reflexivity.
  - apply Z.eqb_neq. now apply code_diff.
Qed.

End CStrFacts.

(** * Properties of [parseProxy] *)

Module ProxyFacts.
Import CStr CStrFacts Proxy ProxySpec.
Local Open Scope string_scope.
Local Open Scope Z_scope.

Lemma host_char_false (c : ascii) :
  host_char c = false -> c = NUL \/ c = ":"%char \/ c = "/"%char.
Proof.
  unfold host_char. intros H. apply negb_false_iff in H.
  apply orb_true_iff in H. destruct H as [H | H].
  - apply orb_true_iff in H. destruct H as [H | H]; apply Ascii.eqb_eq in H; auto.
  - apply Ascii.eqb_eq in H; auto.
Qed.

Lemma reject_test (c : ascii) :
  Ascii.eqb c NUL || mem c ":/" = negb (host_char c).
Proof.
  unfold host_char. simpl. rewrite negb_involutive, orb_false_r.
  now rewrite orb_assoc.
Qed.

Lemma strcspn_delim (r : string) :
  host_char (peek r) = false -> strcspn r ":/" = O.
Proof.
  destruct r as [| c t]; [reflexivity |]. cbn [peek strcspn]. intros H.
  now rewrite reject_test, H.
Qed.

Lemma strcspn_host (h r : string) :
  all_chars host_char h = true -> host_char (peek r) = false ->
  strcspn (h ++ r) ":/" = String.length h.
Proof.
  intros Hh Hr. induction h as [| c h IH].
  - now apply strcspn_delim.
  - cbn [all_chars] in Hh. apply andb_true_iff in Hh. destruct Hh as [Hc Hh].
    change (String c h ++ r) with (String c (h ++ r)). cbn [strcspn String.length].
    now rewrite reject_test, Hc, IH.
Qed.

Lemma is_host_inv (h : string) :
  is_host h = true -> h <> "" /\ all_chars host_char h = true.
Proof.
  unfold is_host. intros H. apply andb_true_iff in H. destruct H as [H1 H2].
  split; [| assumption]. apply negb_true_iff in H1. now apply String.eqb_neq in H1.
Qed.

(** What [parse_host_port] does once the host is delimited. *)
Lemma parse_host_port_app (dm : data_model) (h r : string) (p : proxy_t) :
  is_host h = true -> host_char (peek r) = false ->
  parse_host_port dm (h ++ r) p =
  match after_host dm r 80 with
  | None => (1, p)
  | Some q => (0, mkProxy (Some h) q)
  end.
Proof.
  intros Hh Hr. apply is_host_inv in Hh. destruct Hh as [Hne Hh].
  unfold parse_host_port. rewrite (strcspn_host _ _ Hh Hr).
  destruct h as [| c h]; [congruence |].
  cbn [String.length Nat.eqb].
  change (S (String.length h)) with (String.length (String c h)).
  now rewrite advance_app, myStrndup_app.
Qed.

Lemma parse_host_port_empty (dm : data_model) (r : string) (p : proxy_t) :
  host_char (peek r) = false ->
  parse_host_port dm r p = (0, mkProxy None (port p)).
Proof.
  intros Hr. unfold parse_host_port. now rewrite (strcspn_delim _ Hr).
Qed.

(** The scheme is matched in either case and skipped. *)
Lemma parseProxy_http (dm : data_model) (u0 u1 u2 u3 : bool) (s : string) (p : proxy_t) :
  parseProxy dm (Some (scheme_text (Http u0 u1 u2 u3) ++ s)) p =
  parse_host_port dm s p.
Proof.
  unfold parseProxy.
  replace (strncasecmp (scheme_text (Http u0 u1 u2 u3) ++ s) "http://" 7) with 0
    by (destruct u0, u1, u2, u3; reflexivity).
  cbn [Z.eqb]. now destruct u0, u1, u2, u3.
Qed.

Lemma parseProxy_plain (dm : data_model) (s : string) (p : proxy_t) :
  (strncasecmp s "http://" 7 =? 0) = false ->
  parseProxy dm (Some s) p = parse_host_port dm s p.
Proof. unfold parseProxy. now intros ->. Qed.

Lemma plain_delim (r : string) :
  host_char (peek r) = false -> (strncasecmp r "http://" 7 =? 0) = false.
Proof.
  intros H. rewrite strncasecmp_step.
  destruct (host_char_false _ H) as [E | [E | E]]; rewrite E; reflexivity.
Qed.

Lemma host_char_colon c : host_char c = true -> Ascii.eqb c ":" = false.
Proof.
  unfold host_char. intros H. apply negb_true_iff in H.
  apply orb_false_iff in H. destruct H as [H _]. apply orb_false_iff in H. tauto.
Qed.

Lemma and_nul (c d : ascii) (k : bool) :
  Ascii.eqb d NUL = false ->
  Ascii.eqb c d && (Ascii.eqb c NUL || k) = Ascii.eqb c d && k.
Proof.
  intros H. destruct (Ascii.eqb c d) eqn:E; [| reflexivity].
  apply Ascii.eqb_eq in E. subst c. now rewrite H.
Qed.

Lemma plain_host_colon (h t : string) :
  is_host h = true -> dslash t = false ->
  (strncasecmp (h ++ String ":" t) "http://" 7 =? 0) = false.
Proof.
  intros Hh Ht. apply is_host_inv in Hh. destruct Hh as [Hne Hh].
  destruct h as [| c0 [| c1 [| c2 [| c3 [| c4 h]]]]]; [congruence | ..];
    cbn [all_chars] in Hh;
    repeat (apply andb_true_iff in Hh; let H := fresh "Hc" in destruct Hh as [H Hh]);
    repeat (rewrite strncasecmp_step; cbn [append peek next]);
    change (tolower "h") with "h"%char; change (tolower "t") with "t"%char;
    change (tolower "p") with "p"%char; change (tolower ":") with ":"%char;
    change (tolower "/") with "/"%char;
    rewrite !and_nul by reflexivity;
    rewrite ?ci_colon, ?ci_slash; cbn [strncasecmp Z.eqb].
  - cbn. now rewrite !andb_false_r.
  - cbn. now rewrite !andb_false_r.
  - cbn. now rewrite !andb_false_r.
  - unfold dslash in Ht. rewrite andb_true_r, Ascii.eqb_refl. cbn [andb].
    rewrite Ht. now rewrite !andb_false_r.
  - rewrite (host_char_colon _ Hc3). cbn [andb]. now rewrite !andb_false_r.
Qed.

Lemma digit_facts (c : ascii) :
  isdigit c = true ->
  isspace c = false /\ Ascii.eqb c "-" = false /\ Ascii.eqb c "+" = false /\
  Ascii.eqb c "/" = false /\ 0 <= code c - 48.
Proof.
  destruct c as [[] [] [] [] [] [] [] []]; intros H; vm_compute in H;
    try discriminate H; repeat split; vm_compute; congruence.
Qed.

Lemma scan_digits_app (d r : string) (acc : Z) :
  all_chars isdigit d = true -> isdigit (peek r) = false ->
  scan_digits acc (d ++ r) = (acc * 10 ^ Z.of_nat (String.length d) + decimal d, r).
Proof.
  intros Hd Hr. revert acc. induction d as [| c d IH]; intros acc.
  - cbn [append String.length decimal Z.of_nat Z.pow].
    replace (acc * 1 + 0) with acc by ring.
    destruct r as [| c t]; [reflexivity |]. cbn [peek] in Hr. cbn [scan_digits]. now rewrite Hr.
  - cbn [all_chars] in Hd. apply andb_true_iff in Hd. destruct Hd as [Hc Hd].
    change (String c d ++ r) with (String c (d ++ r)). cbn [scan_digits]. rewrite Hc.
    rewrite (IH Hd). f_equal. cbn [String.length decimal].
    rewrite Nat2Z.inj_succ, Z.pow_succ_r by lia. ring.
Qed.

Lemma decimal_nonneg (d : string) : all_chars isdigit d = true -> 0 <= decimal d.
Proof.
  induction d as [| c d IH]; cbn [all_chars decimal]; intros H; [lia |].
  apply andb_true_iff in H. destruct H as [Hc Hd].
  pose proof (digit_facts c Hc) as (_ & _ & _ & _ & Hv). specialize (IH Hd).
  assert (0 <= 10 ^ Z.of_nat (String.length d)) by (apply Z.pow_nonneg; lia). nia.
Qed.

Lemma is_port_inv (d : string) :
  is_port d = true ->
  exists c t, d = String c t /\ isdigit c = true /\ all_chars isdigit d = true.
Proof.
  unfold is_port. intros H. apply andb_true_iff in H. destruct H as [H1 H2].
  destruct d as [| c t]; [discriminate |]. exists c, t. split; [reflexivity |].
  split; [| assumption]. cbn [all_chars] in H2. now apply andb_true_iff in H2.
Qed.

Lemma LONG_MIN_neg (dm : data_model) : LONG_MIN dm < 0.
Proof. destruct dm; reflexivity. Qed.

Lemma strtol_digits (dm : data_model) (d r : string) :
  is_port d = true -> isdigit (peek r) = false ->
  strtol dm (d ++ r) =
  if LONG_MAX dm <? decimal d
  then mkStrtol (LONG_MAX dm) (Some r) ERANGE
  else mkStrtol (decimal d) (Some r) 0.
Proof.
  intros Hd Hr. destruct (is_port_inv d Hd) as (c & t & -> & Hc & Hall).
  pose proof (digit_facts c Hc) as (Hs & Hm & Hp & _ & _).
  unfold strtol. change (String c t ++ r) with (String c (t ++ r)).
  cbn [skip_space]. rewrite Hs. cbn [peek]. rewrite Hm, Hp. cbn [orb]. cbn [peek]. rewrite Hc.
  change (String c (t ++ r)) with (String c t ++ r).
  rewrite (scan_digits_app _ _ 0 Hall Hr). cbn [Z.mul Z.add].
  pose proof (decimal_nonneg _ Hall). pose proof (LONG_MIN_neg dm).
  destruct (LONG_MAX dm <? decimal (String c t)); [reflexivity |].
  destruct (decimal (String c t) <? LONG_MIN dm) eqn:E; [| reflexivity].
  apply Z.ltb_lt in E. lia.
Qed.

Lemma peek_port_app (d r : string) : is_port d = true -> isdigit (peek (d ++ r)) = true.
Proof. intros H. now destruct (is_port_inv d H) as (c & t & -> & Hc & _). Qed.

Lemma after_host_port (dm : data_model) (d r : string) :
  is_port d = true -> isdigit (peek r) = false ->
  after_host dm (String ":" (d ++ r)) 80 =
  if LONG_MAX dm <? decimal d then None
  else after_port r (int_of_long (decimal d)).
Proof.
  intros Hd Hr. unfold after_host. cbn [peek next Ascii.eqb Bool.eqb andb].
  cbv beta iota zeta.
  rewrite (peek_port_app _ r Hd), (strtol_digits _ _ _ Hd Hr).
  now destruct (LONG_MAX dm <? decimal d).
Qed.

Lemma after_host_no_port (dm : data_model) (t : string) :
  isdigit (peek t) = false -> after_host dm (String ":" t) 80 = after_port t 80.
Proof.
  intros H. unfold after_host. cbn [peek next Ascii.eqb Bool.eqb andb].
  cbv beta iota zeta. now rewrite H.
Qed.

Lemma after_port_value (r : string) (x q : Z) : after_port r x = Some q -> q = x.
Proof.
  unfold after_port.
  destruct (Ascii.eqb (peek r) "/");
    [destruct (Ascii.eqb (peek (next r)) NUL) | destruct (Ascii.eqb (peek r) NUL)];
    congruence.
Qed.

Lemma after_port_garbage (c : ascii) (t : string) (x : Z) :
  c <> NUL -> after_port (String "/" (String c t)) x = None.
Proof.
  intros H. unfold after_port. cbn [peek next].
  apply Ascii.eqb_neq in H. now rewrite H.
Qed.

Lemma int_of_long_small (v : Z) : 0 <= v <= INT_MAX -> int_of_long v = v.
Proof.
  unfold int_of_long, INT_MAX. intros H.
  rewrite Z.mod_small; lia.
Qed.

Lemma parseProxy_host_colon (dm : data_model) (sc : scheme) (h t : string) (p : proxy_t) :
  is_host h = true -> dslash t = false ->
  parseProxy dm (Some (scheme_text sc ++ h ++ String ":" t)) p =
  match after_host dm (String ":" t) 80 with
  | None => (1, p)
  | Some q => (0, mkProxy (Some h) q)
  end.
Proof.
  intros Hh Ht. destruct sc as [| u0 u1 u2 u3].
  - cbn [scheme_text append]. rewrite parseProxy_plain by now apply plain_host_colon.
    now apply parse_host_port_app.
  - rewrite parseProxy_http. now apply parse_host_port_app.
Qed.

Lemma dslash_port (d r : string) : is_port d = true -> dslash (d ++ r) = false.
Proof.
  intros H. destruct (is_port_inv d H) as (c & t & -> & Hc & _).
  pose proof (digit_facts c Hc) as (_ & _ & _ & Hs & _).
  unfold dslash. cbn [append peek]. now rewrite Hs.
Qed.

(** C2. A call of [parseProxy] that fails (a non-zero return value)
    returns 1 and leaves the stored host and port exactly as they
    were: no part of a result is stored. *)
Theorem parse_failure_keeps_state (dm : data_model) (value : option string) (p : proxy_t) :
  fst (parseProxy dm value p) <> 0 ->
  parseProxy dm value p = (1, p).
Proof.
  unfold parseProxy, parse_host_port. destruct value as [cp |]; cbn [fst]; [| congruence].
  destruct (Nat.eqb _ 0); cbn [fst]; [congruence |].
  destruct (after_host _ _ _); cbn [fst]; congruence.
Qed.

Lemma parse_failure_keeps_state_witness :
  fst (parseProxy LP64 (Some "proxy.example.com:8080/extra") stored) <> 0 /\
  parseProxy LP64 (Some "proxy.example.com:8080/extra") stored = (1, stored).
Proof.
  assert (H : fst (parseProxy LP64 (Some "proxy.example.com:8080/extra") stored) <> 0)
    by (vm_compute; discriminate).
  exact (conj H (parse_failure_keeps_state _ _ _ H)).
Defined.

(** C3. The acceptance table: a bare host gets port 80; host and port
    are both read from ["proxy.example.com:8080"]; the scheme is
    accepted with each of its letters in either case and the trailing
    slash is allowed; text after the port and slash is a failure. *)
Theorem acceptance_table (dm : data_model) (p : proxy_t) :
  parseProxy dm (Some "proxy.example.com") p
    = (0, mkProxy (Some "proxy.example.com") 80) /\
  parseProxy dm (Some "proxy.example.com:8080") p
    = (0, mkProxy (Some "proxy.example.com") 8080) /\
  parseProxy dm (Some "http://proxy.example.com:3128/") p
    = (0, mkProxy (Some "proxy.example.com") 3128) /\
  (forall u0 u1 u2 u3 : bool,
     parseProxy dm (Some (scheme_text (Http u0 u1 u2 u3) ++ "proxy.example.com:3128/")) p
       = (0, mkProxy (Some "proxy.example.com") 3128)) /\
  parseProxy dm (Some "proxy.example.com:8080/extra") p = (1, p).
Proof.
  split; [| split; [| split; [| split]]].
  - now destruct dm.
  - now destruct dm.
  - now destruct dm.
  - intros u0 u1 u2 u3. rewrite parseProxy_http. now destruct dm.
  - unfold parseProxy. cbn [strncasecmp peek tolower]. now destruct dm.
Qed.

(** C6, as the code has it. When nothing, a [:] or a [/] stands where
    the host should start, with or without the scheme in front,
    [parseProxy] succeeds, the stored host is cleared, and the stored
    port stays what it was. *)
Theorem empty_host_disables (dm : data_model) (sc : scheme) (r : string) (p : proxy_t) :
  host_char (peek r) = false ->
  parseProxy dm (Some (scheme_text sc ++ r)) p = (0, mkProxy None (port p)).
Proof.
  intros Hr. destruct sc as [| u0 u1 u2 u3].
  - cbn [scheme_text append]. rewrite parseProxy_plain by now apply plain_delim.
    now apply parse_host_port_empty.
  - rewrite parseProxy_http. now apply parse_host_port_empty.
Qed.

Lemma empty_host_disables_witness :
  parseProxy LP64 (Some "") stored = (0, mkProxy None 3128) /\
  parseProxy LP64 (Some ":") stored = (0, mkProxy None 3128) /\
  parseProxy LP64 (Some "/") stored = (0, mkProxy None 3128) /\
  parseProxy LP64 (Some "http://") stored = (0, mkProxy None 3128).
Proof.
  exact (conj (empty_host_disables LP64 NoScheme "" stored eq_refl)
        (conj (empty_host_disables LP64 NoScheme ":" stored eq_refl)
        (conj (empty_host_disables LP64 NoScheme "/" stored eq_refl)
              (empty_host_disables LP64 (Http false false false false) "" stored eq_refl)))).
Defined.

(** The empty string on a stored proxy with port 3128: the host is
    cleared and the port is still 3128 afterwards. *)
Lemma empty_input_keeps_port :
  fst (parseProxy LP64 (Some "") stored) = 0 /\
  host (snd (parseProxy LP64 (Some "") stored)) = None /\
  port stored = 3128 /\
  port (snd (parseProxy LP64 (Some "") stored)) = 3128.
Proof. repeat split. Qed.

Lemma LONG_MAX_ge_INT_MAX (dm : data_model) : INT_MAX <= LONG_MAX dm.
Proof. destruct dm; vm_compute; congruence. Qed.

(** C5, as the code has it. For a host followed by [:] and a run of
    digits denoting [N]: if [N] exceeds [LONG_MAX] the call fails and
    stores nothing; if [N] is at most [INT_MAX] and nothing or a single
    slash follows, the call succeeds with port [N]; and whenever the
    call succeeds with [N] at most [INT_MAX], the stored port is [N],
    which is non-negative and may be zero. *)
Theorem port_is_decimal_value
    (dm : data_model) (sc : scheme) (h d r : string) (p : proxy_t) :
  is_host h = true -> is_port d = true -> isdigit (peek r) = false ->
  let res := parseProxy dm (Some (scheme_text sc ++ h ++ ":" ++ d ++ r)) p in
  (LONG_MAX dm < decimal d -> res = (1, p)) /\
  (decimal d <= INT_MAX -> r = "" \/ r = "/" ->
   res = (0, mkProxy (Some h) (decimal d))) /\
  (decimal d <= INT_MAX -> fst res = 0 ->
   snd res = mkProxy (Some h) (decimal d) /\ 0 <= decimal d).
Proof.
  intros Hh Hd Hr res. subst res.
  change (":" ++ d ++ r) with (String ":" (d ++ r)).
  rewrite (parseProxy_host_colon dm sc h (d ++ r) p Hh (dslash_port d r Hd)).
  rewrite (after_host_port dm d r Hd Hr).
  destruct (is_port_inv d Hd) as (_ & _ & _ & _ & Hall).
  pose proof (decimal_nonneg d Hall) as H0.
  pose proof (LONG_MAX_ge_INT_MAX dm) as HM.
  split; [| split].
  - intros Hbig. apply Z.ltb_lt in Hbig. now rewrite Hbig.
  - intros Hsmall Hrest.
    replace (LONG_MAX dm <? decimal d) with false by (symmetry; apply Z.ltb_ge; lia).
    rewrite int_of_long_small by lia.
    destruct Hrest as [-> | ->]; reflexivity.
  - intros Hsmall.
    replace (LONG_MAX dm <? decimal d) with false by (symmetry; apply Z.ltb_ge; lia).
    rewrite int_of_long_small by lia.
    destruct (after_port r (decimal d)) as [q |] eqn:E; cbn [fst snd]; [| discriminate].
    intros _. apply after_port_value in E. now subst q.
Qed.

Lemma port_is_decimal_value_witness :
  parseProxy LP64 (Some "http://proxy.example.com:3128/") stored
    = (0, mkProxy (Some "proxy.example.com") 3128) /\
  parseProxy LP64 (Some "host:9223372036854775808") stored = (1, stored).
Proof.
  split.
  - exact (proj1 (proj2 (port_is_decimal_value LP64 (Http false false false false)
             "proxy.example.com" "3128" "/" stored eq_refl eq_refl eq_refl))
             ltac:(vm_compute; discriminate) (or_intror eq_refl)).
  - exact (proj1 (port_is_decimal_value LP64 NoScheme
             "host" "9223372036854775808" "" stored eq_refl eq_refl eq_refl)
             eq_refl).
Defined.

(** ["host:0"] is accepted, and the port stored is 0. *)
Lemma port_zero_accepted :
  fst (parseProxy LP64 (Some "host:0") stored) = 0 /\
  host (snd (parseProxy LP64 (Some "host:0") stored)) = Some "host" /\
  port (snd (parseProxy LP64 (Some "host:0") stored)) = 0.
Proof. repeat split. Qed.

(** C7. After a host, a colon with no digits is accepted when the
    string ends there or with one slash, and the port is then 80;
    ["host:80/"] is accepted; any character after the slash of
    ["host:80/"] is a failure; and so is a colon followed by a
    character that is neither a digit nor a slash. *)
Theorem colon_without_digits
    (dm : data_model) (sc : scheme) (h : string) (p : proxy_t) :
  is_host h = true ->
  parseProxy dm (Some (scheme_text sc ++ h ++ ":")) p = (0, mkProxy (Some h) 80) /\
  parseProxy dm (Some (scheme_text sc ++ h ++ ":/")) p = (0, mkProxy (Some h) 80) /\
  parseProxy dm (Some (scheme_text sc ++ h ++ ":80/")) p = (0, mkProxy (Some h) 80) /\
  (forall (c : ascii) (t : string), c <> NUL ->
     parseProxy dm (Some (scheme_text sc ++ h ++ ":80/" ++ String c t)) p = (1, p)) /\
  (forall (c : ascii) (t : string), isdigit c = false -> c <> "/"%char -> c <> NUL ->
     parseProxy dm (Some (scheme_text sc ++ h ++ ":" ++ String c t)) p = (1, p)).
Proof.
  intros Hh.
  assert (Hmax : (LONG_MAX dm <? decimal "80") = false) by now destruct dm.
  repeat split.
  - now rewrite (parseProxy_host_colon dm sc h "" p Hh eq_refl).
  - now rewrite (parseProxy_host_colon dm sc h "/" p Hh eq_refl).
  - change (h ++ ":80/") with (h ++ String ":" ("80" ++ "/")).
    rewrite (parseProxy_host_colon dm sc h ("80" ++ "/") p Hh eq_refl).
    rewrite (after_host_port dm "80" "/" eq_refl eq_refl), Hmax. reflexivity.
  - intros c t Hc.
    change (h ++ ":80/" ++ String c t) with (h ++ String ":" ("80" ++ String "/" (String c t))).
    rewrite (parseProxy_host_colon dm sc h ("80" ++ String "/" (String c t)) p Hh eq_refl).
    rewrite (after_host_port dm "80" (String "/" (String c t)) eq_refl eq_refl), Hmax.
    now rewrite (after_port_garbage c t _ Hc).
  - intros c t Hd Hs Hn.
    change (h ++ ":" ++ String c t) with (h ++ String ":" (String c t)).
    apply Ascii.eqb_neq in Hs, Hn.
    rewrite (parseProxy_host_colon dm sc h (String c t) p Hh)
      by (unfold dslash; cbn [peek]; now rewrite Hs).
    rewrite (after_host_no_port dm (String c t) Hd).
    unfold after_port. cbn [peek]. now rewrite Hs, Hn.
Qed.

Lemma colon_without_digits_witness :
  parseProxy LP64 (Some "host:") stored = (0, mkProxy (Some "host") 80) /\
  parseProxy LP64 (Some "host:/") stored = (0, mkProxy (Some "host") 80) /\
  parseProxy LP64 (Some "host:80/") stored = (0, mkProxy (Some "host") 80) /\
  parseProxy LP64 (Some "host:80/x") stored = (1, stored) /\
  parseProxy LP64 (Some "host:x") stored = (1, stored).
Proof.
  pose (W := colon_without_digits LP64 NoScheme "host" stored eq_refl).
  refine (conj (proj1 W) (conj (proj1 (proj2 W)) (conj (proj1 (proj2 (proj2 W))) (conj _ _)))).
  - refine (proj1 (proj2 (proj2 (proj2 W))) "x"%char "" _). vm_compute. discriminate.
  - refine (proj2 (proj2 (proj2 (proj2 W))) "x"%char "" eq_refl _ _); vm_compute; discriminate.
Defined.

End ProxyFacts.

(** * Properties of the password obfuscation *)

Module GuardFacts.
Import Guard GuardSpec.

Lemma some_eq {A : Type} (x y : A) : Some x = Some y -> x = y.
Proof. now intros [= ->]. Qed.

Lemma load_app (l1 l2 : buffer) (c : Z) :
  load (l1 ++ c :: l2) (List.length l1) = Some c.
Proof.
  unfold load. rewrite nth_error_app2 by lia. now rewrite Nat.sub_diag.
Qed.

Lemma store_app (l1 l2 : buffer) (c v : Z) :
  store (l1 ++ c :: l2) (List.length l1) v = Some (l1 ++ v :: l2).
Proof.
  unfold store.
  replace (List.length l1 <? List.length (l1 ++ c :: l2))%nat with true
    by (symmetry; apply Nat.ltb_lt; rewrite length_app; cbn [List.length]; lia).
  rewrite firstn_app, firstn_all, Nat.sub_diag. cbn [firstn]. rewrite app_nil_r.
  replace (S (List.length l1)) with (List.length (l1 ++ [c]))
    by (rewrite length_app; cbn [List.length]; lia).
  replace (l1 ++ c :: l2) with ((l1 ++ [c]) ++ l2) by now rewrite <- app_assoc.
  now rewrite skipn_app, skipn_all, Nat.sub_diag.
Qed.

Lemma snoc_assoc (l1 l2 : buffer) (v : Z) : l1 ++ v :: l2 = (l1 ++ [v]) ++ l2.
Proof. now rewrite <- app_assoc. Qed.

Lemma length_snoc (l : buffer) (v : Z) : List.length (l ++ [v]) = S (List.length l).
Proof. rewrite length_app. cbn [List.length]. lia. Qed.

Lemma xor_prefix_involutive (n : nat) (b p : buffer) :
  xor_prefix n (xor_prefix n b p) p = b.
Proof.
  revert b p. induction n as [| n IH]; intros [| c b] [| k p]; cbn [xor_prefix]; auto.
  rewrite IH. f_equal.
  rewrite Z.lxor_assoc, Z.lxor_nilpotent. apply Z.lxor_0_r.
Qed.

Lemma xor_prefix_length (n : nat) (b p : buffer) :
  List.length (xor_prefix n b p) = List.length b.
Proof.
  revert b p. induction n as [| n IH]; intros [| c b] [| k p]; cbn [xor_prefix List.length]; auto.
Qed.

Lemma set_password_same (s : state) : set_password (password s) s = s.
Proof. now destruct s. Qed.

Lemma xor_loop_run (n : nat) :
  forall (l1 b2 p1 p2 : buffer) (s : state),
    List.length l1 = List.length p1 ->
    password s = Some (l1 ++ b2) -> passwordPad s = Some (p1 ++ p2) ->
    (n <= List.length b2)%nat -> (n <= List.length p2)%nat ->
    for_loop n (List.length l1) xor_body s =
    Some (tt, set_password (Some (l1 ++ xor_prefix n b2 p2)) s).
Proof.
  induction n as [| n IH]; intros l1 b2 p1 p2 s Hl Hb Hp Hnb Hnp.
  - cbn [for_loop xor_prefix]. unfold ret. now rewrite <- Hb, set_password_same.
  - destruct b2 as [| c b2]; [cbn [List.length] in Hnb; lia |].
    destruct p2 as [| k p2]; [cbn [List.length] in Hnp; lia |].
    cbn [List.length] in Hnb, Hnp.
    cbn [for_loop]. unfold bind at 1. unfold xor_body at 1.
    unfold bind at 1. unfold load_password at 1. rewrite Hb, load_app. cbn [option_map].
    unfold bind at 1. unfold load_pad at 1. rewrite Hp, Hl, load_app. cbn [option_map].
    unfold store_password. rewrite Hb, <- Hl, store_app. cbn [option_map].
    rewrite <- length_snoc with (v := Z.lxor c k).
    rewrite (IH (l1 ++ [Z.lxor c k]) b2 (p1 ++ [k]) p2).
    + cbn [xor_prefix]. rewrite <- snoc_assoc. reflexivity.
    + now rewrite !length_snoc, Hl.
    + cbn. now rewrite <- snoc_assoc.
    + cbn. rewrite Hp. now rewrite <- snoc_assoc.
    + lia.
    + lia.
Qed.

(** The same loop on a block that ends before [n] bytes are done. *)
Lemma load_end (l1 : buffer) : load (l1 ++ []) (List.length l1) = None.
Proof. unfold load. apply nth_error_None. rewrite app_nil_r. lia. Qed.

Lemma xor_loop_overrun (n : nat) :
  forall (l1 b2 p1 p2 : buffer) (s : state),
    List.length l1 = List.length p1 ->
    password s = Some (l1 ++ b2) -> passwordPad s = Some (p1 ++ p2) ->
    (List.length b2 < n)%nat ->
    for_loop n (List.length l1) xor_body s = None.
Proof.
  induction n as [| n IH]; intros l1 b2 p1 p2 s Hl Hb Hp Hn; [lia |].
  cbn [for_loop]. unfold bind at 1. unfold xor_body at 1.
  unfold bind at 1. unfold load_password at 1. rewrite Hb.
  destruct b2 as [| c b2]; [now rewrite load_end |].
  rewrite load_app. cbn [option_map].
  unfold bind at 1. unfold load_pad at 1. rewrite Hp, Hl.
  destruct p2 as [| k p2]; [now rewrite load_end |].
  rewrite load_app. cbn [option_map].
  unfold store_password. rewrite Hb, <- Hl, store_app. cbn [option_map].
  rewrite <- length_snoc with (v := Z.lxor c k).
  apply (IH (l1 ++ [Z.lxor c k]) b2 (p1 ++ [k]) p2).
  - now rewrite !length_snoc, Hl.
  - cbn. now rewrite <- snoc_assoc.
  - cbn. rewrite Hp. now rewrite <- snoc_assoc.
  - cbn [List.length] in Hn. lia.
Qed.

Lemma strlen_lt (b : buffer) (n : nat) : strlen b = Some n -> (n < List.length b)%nat.
Proof.
  revert n. induction b as [| c b IH]; intros n; cbn [strlen List.length]; [discriminate |].
  destruct (c =? 0); [intros [= <-]; lia |].
  destruct (strlen b) as [m |]; cbn [option_map]; [| discriminate].
  intros [= <-]. specialize (IH m eq_refl). lia.
Qed.

Lemma decrypt_noop (s : state) :
  encrypted s = 0 \/ password s = None \/ passwordPad s = None ->
  decryptPassword s = Some (tt, s).
Proof.
  intros H. unfold decryptPassword, bind, get.
  destruct H as [H | [H | H]]; rewrite H; cbn [Z.eqb is_null orb];
    rewrite ?orb_true_r; reflexivity.
Qed.

Lemma decrypt_with_pad (s : state) (b p : buffer) :
  encrypted s <> 0 -> password s = Some b -> passwordPad s = Some p ->
  (passwordLen s <= List.length b)%nat -> (passwordLen s <= List.length p)%nat ->
  decryptPassword s =
  Some (tt, set_encrypted 0 (set_password (Some (xor_prefix (passwordLen s) b p)) s)).
Proof.
  intros He Hb Hp Hlb Hlp. apply Z.eqb_neq in He.
  unfold decryptPassword. unfold bind at 1. unfold get at 1. unfold bind at 1. unfold get at 1.
  unfold bind at 1. unfold get at 1.
  rewrite He, Hb, Hp. cbn [is_null orb].
  unfold bind at 1. unfold get at 1.
  unfold bind at 1.
  change 0%nat with (List.length (@nil Z)).
  rewrite (xor_loop_run (passwordLen s) [] b [] p);
    [reflexivity | cbn [app]; first [lia | assumption] ..].
Qed.

Lemma consistent_of_fields (s s' : state) :
  password s' = password s -> encrypted s' = encrypted s ->
  passwordPad s' = passwordPad s -> passwordLen s' = passwordLen s ->
  consistent s -> consistent s'.
Proof.
  intros Hb He Hp Hl [C1 C2 C3 C4 C5].
  constructor; unfold plaintext in *; rewrite ?Hb, ?He, ?Hp, ?Hl; assumption.
Qed.

Lemma plaintext_of_fields (s s' : state) :
  password s' = password s -> encrypted s' = encrypted s ->
  passwordPad s' = passwordPad s -> passwordLen s' = passwordLen s ->
  plaintext s' = plaintext s.
Proof. intros Hb He Hp Hl. unfold plaintext. now rewrite Hb, He, Hp, Hl. Qed.

(** Toggling the obfuscation keeps the invariant and the password. *)
Lemma consistent_toggle (s s' : state) (b p : buffer) :
  consistent s -> password s = Some b -> passwordPad s = Some p ->
  password s' = Some (xor_prefix (passwordLen s) b p) ->
  (encrypted s = 0 <-> encrypted s' <> 0) ->
  passwordPad s' = passwordPad s -> passwordLen s' = passwordLen s ->
  consistent s' /\ plaintext s' = plaintext s.
Proof.
  intros [C1 C2 C3 C4 C5] Hb Hp Hb' He Hp' Hl'.
  assert (Hplain : plaintext s' = plaintext s).
  { unfold plaintext. rewrite Hb', Hb, Hp', Hp, Hl'.
    destruct (Z.eqb_spec (encrypted s) 0) as [E | E].
    - apply He in E. apply Z.eqb_neq in E. rewrite E.
      now rewrite xor_prefix_involutive.
    - destruct (Z.eqb_spec (encrypted s') 0) as [E' | E']; [reflexivity |].
      exfalso. apply E. now apply He. }
  split; [| exact Hplain].
  constructor; rewrite ?Hplain, ?Hp', ?Hl'; try assumption.
  - rewrite Hb'. discriminate.
  - intros b' Hb''. rewrite Hb' in Hb''. apply some_eq in Hb''. subst b'.
    rewrite xor_prefix_length. now apply C4.
Qed.

Lemma consistent_empty (s : state) :
  password s = None -> passwordPad s = None -> passwordLen s = O -> consistent s.
Proof.
  intros Hb Hp Hl. constructor; unfold plaintext; rewrite ?Hb, ?Hp, ?Hl;
    try tauto; discriminate.
Qed.

Lemma consistent_supply (s : state) (b : buffer) (n : nat) :
  consistent s -> passwordPad s = None -> strlen b = Some n ->
  consistent (supplyPassword b s).
Proof.
  intros [C1 C2 C3 C4 C5] Hp Hn.
  assert (Hl : passwordLen s = O) by now apply C1.
  constructor; unfold plaintext; cbn; rewrite ?Hp, ?Hl; try tauto; try discriminate.
  - intros; lia.
  - intros b' E. apply some_eq in E. subst b'. exists n. split; [assumption | intros E; now elim E].
Qed.

Section Runs.
Variable random_seq : Z -> nat -> Z.
Variables getpid time0 : Z.

Lemma pad_loop_run (n : nat) :
  forall (p1 p2 : buffer) (s : state),
    passwordPad s = Some (p1 ++ p2) -> (n <= List.length p2)%nat ->
    for_loop n (List.length p1) (pad_body random_seq) s =
    Some (tt, mkState (password s) (encrypted s)
                (Some (p1 ++ draws random_seq (rand_seed s) 1 (rand_count s) n ++ skipn n p2))
                (passwordLen s) (needSeed s) (rand_seed s) (n + rand_count s) (released s)).
Proof.
  induction n as [| n IH]; intros p1 p2 s Hp Hn.
  - cbn [for_loop draws skipn app Nat.add]. unfold ret. rewrite <- Hp. now destruct s.
  - destruct p2 as [| k p2]; [cbn [List.length] in Hn; lia |].
    cbn [List.length] in Hn.
    cbn [for_loop]. unfold bind at 1. unfold pad_body at 1.
    unfold bind at 1. unfold random at 1.
    unfold store_pad at 1. cbn [passwordPad]. rewrite Hp, store_app. cbn [option_map].
    rewrite <- length_snoc with (v := to_char (random_seq (rand_seed s) (rand_count s))).
    rewrite (IH (p1 ++ [to_char (random_seq (rand_seed s) (rand_count s))]) p2).
    + cbn [password encrypted passwordPad passwordLen needSeed rand_seed rand_count released
           set_passwordPad draws skipn Nat.add].
      rewrite <- app_assoc. cbn [app]. now rewrite Nat.add_succ_r.
    + cbn. now rewrite <- snoc_assoc.
    + lia.
Qed.

Lemma clear_loop_run (n : nat) :
  forall (l1 b2 p1 p2 : buffer) (s : state),
    List.length l1 = List.length p1 ->
    password s = Some (l1 ++ b2) -> passwordPad s = Some (p1 ++ p2) ->
    (n <= List.length b2)%nat -> (n <= List.length p2)%nat ->
    for_loop n (List.length l1) (clear_body random_seq) s =
    Some (tt, mkState
                (Some (l1 ++ draws random_seq (rand_seed s) 2 (rand_count s) n ++ skipn n b2))
                (encrypted s)
                (Some (p1 ++ draws random_seq (rand_seed s) 2 (S (rand_count s)) n ++ skipn n p2))
                (passwordLen s) (needSeed s) (rand_seed s) (2 * n + rand_count s) (released s)).
Proof.
  induction n as [| n IH]; intros l1 b2 p1 p2 s Hl Hb Hp Hnb Hnp.
  - cbn [for_loop draws skipn app Nat.add Nat.mul]. unfold ret. rewrite <- Hb, <- Hp. now destruct s.
  - destruct b2 as [| c b2]; [cbn [List.length] in Hnb; lia |].
    destruct p2 as [| k p2]; [cbn [List.length] in Hnp; lia |].
    cbn [List.length] in Hnb, Hnp.
    cbn [for_loop]. unfold bind at 1. unfold clear_body at 1.
    unfold bind at 1. unfold random at 1.
    unfold bind at 1. unfold store_password at 1. cbn [password]. rewrite Hb, store_app.
    cbn [option_map].
    unfold bind at 1. unfold random at 1.
    unfold store_pad at 1.
    cbn [password encrypted passwordPad passwordLen needSeed rand_seed rand_count released
         set_password].
    rewrite Hp, Hl, store_app. cbn [option_map].
    rewrite <- Hl.
    rewrite <- length_snoc with (v := to_char (random_seq (rand_seed s) (rand_count s))).
    rewrite (IH (l1 ++ [to_char (random_seq (rand_seed s) (rand_count s))]) b2
                (p1 ++ [to_char (random_seq (rand_seed s) (S (rand_count s)))]) p2).
    + cbn [password encrypted passwordPad passwordLen needSeed rand_seed rand_count released
           set_passwordPad set_password draws skipn Nat.add].
      rewrite <- !app_assoc. cbn [app].
      replace (2 * n + S (S (rand_count s)))%nat with (2 * S n + rand_count s)%nat by lia.
      reflexivity.
    + now rewrite !length_snoc, Hl.
    + cbn. now rewrite <- snoc_assoc.
    + cbn. now rewrite <- snoc_assoc.
    + lia.
    + lia.
Qed.

Lemma seed_run (s : state) :
  seedPasswordRandom getpid time0 s = Some (tt, seeded getpid time0 s).
Proof.
  unfold seedPasswordRandom, seeded, bind, get, srandom, modify, ret.
  now destruct (negb (needSeed s =? 0)).
Qed.

Lemma seeded_fields (s : state) :
  password (seeded getpid time0 s) = password s /\
  encrypted (seeded getpid time0 s) = encrypted s /\
  passwordPad (seeded getpid time0 s) = passwordPad s /\
  passwordLen (seeded getpid time0 s) = passwordLen s /\
  released (seeded getpid time0 s) = released s.
Proof. unfold seeded. now destruct (negb (needSeed s =? 0)). Qed.

Lemma draws_length (seed : Z) (stride count n : nat) :
  List.length (draws random_seq seed stride count n) = n.
Proof. revert count. induction n as [| n IH]; intros count; cbn [draws List.length]; auto. Qed.

Lemma encrypt_noop (s : state) :
  encrypted s <> 0 \/ password s = None ->
  encryptPassword random_seq getpid time0 s = Some (tt, s).
Proof.
  intros H. unfold encryptPassword, bind, get.
  destruct H as [H | H].
  - apply Z.eqb_neq in H. now rewrite H.
  - rewrite H. cbn [is_null]. now rewrite orb_true_r.
Qed.

Lemma encrypt_with_pad (s : state) (b p : buffer) :
  encrypted s = 0 -> password s = Some b -> passwordPad s = Some p ->
  (passwordLen s <= List.length b)%nat -> (passwordLen s <= List.length p)%nat ->
  encryptPassword random_seq getpid time0 s =
  Some (tt, set_encrypted 1
              (set_password (Some (xor_prefix (passwordLen s) b p))
                            (seeded getpid time0 s))).
Proof.
  intros He Hb Hp Hlb Hlp.
  destruct (seeded_fields s) as (Fb & Fe & Fp & Fl & Fr).
  unfold encryptPassword. unfold bind at 1. unfold get at 1. unfold bind at 1. unfold get at 1.
  rewrite He, Hb. cbn [Z.eqb negb is_null orb].
  unfold bind at 1. rewrite seed_run.
  unfold bind at 1. unfold get at 1. rewrite Fp, Hp. cbn [is_null].
  unfold bind at 1. unfold ret at 1.
  unfold bind at 1. unfold get at 1. rewrite Fl.
  unfold bind at 1.
  change 0%nat with (List.length (@nil Z)).
  rewrite (xor_loop_run (passwordLen s) [] b [] p);
    [reflexivity | cbn [app]; first [lia | assumption | now rewrite Fb | now rewrite Fp] ..].
Qed.

Lemma encrypt_short_block (s : state) (b p : buffer) :
  encrypted s = 0 -> password s = Some b -> passwordPad s = Some p ->
  (List.length b < passwordLen s)%nat ->
  encryptPassword random_seq getpid time0 s = None.
Proof.
  intros He Hb Hp Hlen.
  destruct (seeded_fields s) as (Fb & Fe & Fp & Fl & Fr).
  unfold encryptPassword. unfold bind at 1. unfold get at 1. unfold bind at 1. unfold get at 1.
  rewrite He, Hb. cbn [Z.eqb negb is_null orb].
  unfold bind at 1. rewrite seed_run.
  unfold bind at 1. unfold get at 1. rewrite Fp, Hp. cbn [is_null].
  unfold bind at 1. unfold ret at 1.
  unfold bind at 1. unfold get at 1. rewrite Fl.
  unfold bind at 1.
  change 0%nat with (List.length (@nil Z)).
  rewrite (xor_loop_overrun (passwordLen s) [] b [] p);
    [reflexivity | cbn [app]; first [lia | assumption | now rewrite Fb | now rewrite Fp] ..].
Qed.

Lemma encrypt_fresh (s : state) (b : buffer) (n : nat) :
  encrypted s = 0 -> password s = Some b -> passwordPad s = None ->
  strlen b = Some n ->
  let s1 := seeded getpid time0 s in
  let pad := draws random_seq (rand_seed s1) 1 (rand_count s1) (S n) in
  encryptPassword random_seq getpid time0 s =
  Some (tt, mkState (Some (xor_prefix (S n) b pad)) 1 (Some pad) (S n)
                    (needSeed s1) (rand_seed s1) (S n + rand_count s1) (released s1)).
Proof.
  intros He Hb Hp Hn s1 pad.
  destruct (seeded_fields s) as (Fb & Fe & Fp & Fl & Fr). fold s1 in Fb, Fe, Fp, Fl, Fr.
  pose proof (strlen_lt b n Hn) as Hlt.
  unfold encryptPassword. unfold bind at 1. unfold get at 1. unfold bind at 1. unfold get at 1.
  rewrite He, Hb. cbn [Z.eqb negb is_null orb].
  unfold bind at 1. rewrite seed_run. fold s1.
  unfold bind at 1. unfold get at 1. rewrite Fp, Hp. cbn [is_null].
  unfold bind at 1. unfold bind at 1. unfold strlen_password at 1. rewrite Fb, Hb, Hn.
  cbn [option_map].
  unfold bind at 1. unfold modify at 1.
  unfold bind at 1. unfold get at 1.
  unfold bind at 1. unfold modify at 1.
  cbn [passwordLen set_passwordLen set_passwordPad password encrypted passwordPad needSeed
       rand_seed rand_count released].
  rewrite Nat.add_1_r.
  change 0%nat with (List.length (@nil Z)) at 1.
  rewrite (pad_loop_run (S n) [] (myMalloc (S n)));
    [| reflexivity | unfold myMalloc; rewrite repeat_length; lia].
  cbn [passwordLen set_passwordLen set_passwordPad password encrypted passwordPad needSeed
       rand_seed rand_count released app].
  replace (skipn (S n) (myMalloc (S n))) with (@nil Z)
    by (symmetry; apply skipn_all2; unfold myMalloc; rewrite repeat_length; lia).
  rewrite app_nil_r. fold pad.
  unfold bind at 1. unfold get at 1. cbn [passwordLen].
  unfold bind at 1.
  change 0%nat with (List.length (@nil Z)) at 1.
  rewrite (xor_loop_run (S n) [] b [] pad);
    [reflexivity | cbn [app password passwordPad];
                   first [lia | assumption | reflexivity | now rewrite Fb
                         | unfold pad; rewrite draws_length; lia] ..].
Qed.

Lemma clear_empty (s : state) :
  passwordLen s = O ->
  let s1 := seeded getpid time0 s in
  clearPassword random_seq getpid time0 s =
  Some (tt, mkState None (encrypted s) None 0 (needSeed s1) (rand_seed s1) (rand_count s1)
                    (freed (passwordPad s) ++ freed (password s) ++ released s)).
Proof.
  intros Hl s1.
  destruct (seeded_fields s) as (Fb & Fe & Fp & Fl & Fr). fold s1 in Fb, Fe, Fp, Fl, Fr.
  unfold clearPassword. unfold bind at 1. rewrite seed_run. fold s1.
  unfold bind at 1. unfold get at 1. rewrite Fl, Hl.
  cbn [for_loop]. unfold bind, ret, get, modify.
  unfold set_passwordLen, set_passwordPad, set_password, free.
  rewrite Fb.
  destruct (password s) as [b |];
    cbn [password encrypted passwordPad passwordLen needSeed rand_seed rand_count released];
    rewrite Fp; destruct (passwordPad s) as [p |];
    cbn [password encrypted passwordPad passwordLen needSeed rand_seed rand_count released
         freed app];
    rewrite ?Fe, ?Fr; reflexivity.
Qed.

Lemma clear_with_pad (s : state) (b p : buffer) :
  password s = Some b -> passwordPad s = Some p ->
  (passwordLen s <= List.length b)%nat -> (passwordLen s <= List.length p)%nat ->
  let s1 := seeded getpid time0 s in
  let len := passwordLen s in
  clearPassword random_seq getpid time0 s =
  Some (tt, mkState None (encrypted s) None 0 (needSeed s1) (rand_seed s1)
                    (2 * len + rand_count s1)
                    ((draws random_seq (rand_seed s1) 2 (S (rand_count s1)) len ++ skipn len p)
                     :: (draws random_seq (rand_seed s1) 2 (rand_count s1) len ++ skipn len b)
                     :: released s)).
Proof.
  intros Hb Hp Hlb Hlp s1 len.
  destruct (seeded_fields s) as (Fb & Fe & Fp & Fl & Fr). fold s1 in Fb, Fe, Fp, Fl, Fr.
  unfold clearPassword. unfold bind at 1. rewrite seed_run. fold s1.
  unfold bind at 1. unfold get at 1. rewrite Fl. fold len.
  unfold bind at 1.
  change 0%nat with (List.length (@nil Z)) at 1.
  rewrite (clear_loop_run len [] b [] p);
    [| first [lia | assumption | reflexivity | now rewrite Fb | now rewrite Fp] ..].
  unfold bind, ret, get, modify.
  unfold set_passwordLen, set_passwordPad, set_password, free.
  cbn [password encrypted passwordPad passwordLen needSeed rand_seed rand_count released app].
  rewrite Fe, Fr. reflexivity.
Qed.

Lemma encrypt_consistent (s : state) :
  consistent s ->
  exists s', encryptPassword random_seq getpid time0 s = Some (tt, s') /\
             consistent s' /\ plaintext s' = plaintext s.
Proof.
  intros C. pose proof C as [C1 C2 C3 C4 C5].
  destruct (seeded_fields s) as (Fb & Fe & Fp & Fl & Fr).
  destruct (Z.eq_dec (encrypted s) 0) as [He | He];
    [| exists s; split; [apply encrypt_noop; now left | now split]].
  destruct (password s) as [b |] eqn:Hb;
    [| exists s; split; [apply encrypt_noop; now right | now split]].
  destruct (passwordPad s) as [p |] eqn:Hp.
  - pose proof (C2 p eq_refl) as Hlen. pose proof (C4 b eq_refl) as Hlb.
    eexists. split; [apply (encrypt_with_pad s b p He Hb Hp); lia |].
    apply (consistent_toggle s _ b p C Hb Hp); cbn; rewrite ?Fp, ?Fl, ?Hp; try reflexivity.
    split; [intros _; discriminate | intros _; assumption].
  - assert (Hplain : plaintext s = Some b) by (unfold plaintext; now rewrite Hb, He).
    destruct (C5 b Hplain) as (n & Hn & _).
    pose proof (strlen_lt b n Hn) as Hlt.
    eexists. split; [apply (encrypt_fresh s b n He Hb Hp Hn) |].
    pose proof (draws_length (rand_seed (seeded getpid time0 s)) 1
                  (rand_count (seeded getpid time0 s)) (S n)) as Hpad.
    remember (draws random_seq (rand_seed (seeded getpid time0 s)) 1
                    (rand_count (seeded getpid time0 s)) (S n)) as pad eqn:Epad.
    assert (Hplain' : forall s', password s' = Some (xor_prefix (S n) b pad) ->
              encrypted s' = 1 -> passwordPad s' = Some pad ->
              passwordLen s' = S n -> plaintext s' = Some b).
    { intros s' H1 H2 H3 H4. unfold plaintext. rewrite H1, H2, H3, H4. cbn [Z.eqb].
      now rewrite xor_prefix_involutive. }
    split; [| now rewrite Hplain; apply Hplain'].
    constructor; cbn [password encrypted passwordPad passwordLen].
    + split; discriminate.
    + now intros p [= <-].
    + discriminate.
    + intros b' E. apply some_eq in E. subst b'. rewrite xor_prefix_length. lia.
    + intros b' Hb'. rewrite Hplain' in Hb' by reflexivity. apply some_eq in Hb'. subst b'.
      exists n. now split.
Qed.

Lemma decrypt_consistent (s : state) :
  consistent s ->
  exists s', decryptPassword s = Some (tt, s') /\
             consistent s' /\ plaintext s' = plaintext s.
Proof.
  intros C. pose proof C as [C1 C2 C3 C4 C5].
  destruct (Z.eq_dec (encrypted s) 0) as [He | He];
    [exists s; split; [apply decrypt_noop; now left | now split] |].
  destruct (password s) as [b |] eqn:Hb;
    [| exists s; split; [apply decrypt_noop; right; now left | now split]].
  destruct (passwordPad s) as [p |] eqn:Hp;
    [| exists s; split; [apply decrypt_noop; right; now right | now split]].
  pose proof (C2 p eq_refl) as Hlen. pose proof (C4 b eq_refl) as Hlb.
  eexists. split; [apply (decrypt_with_pad s b p He Hb Hp); lia |].
  apply (consistent_toggle s _ b p C Hb Hp); cbn; rewrite ?Hp; try reflexivity.
  split; [intros E; contradiction | intros E; now elim E].
Qed.

Lemma clear_consistent (s : state) :
  consistent s ->
  exists s', clearPassword random_seq getpid time0 s = Some (tt, s') /\
             password s' = None /\ passwordPad s' = None /\ passwordLen s' = O /\
             encrypted s' = encrypted s /\ needSeed s' = 0.
Proof.
  intros [C1 C2 C3 C4 C5].
  assert (Hseed : needSeed (seeded getpid time0 s) = 0).
  { unfold seeded. destruct (Z.eqb_spec (needSeed s) 0); cbn [negb]; [assumption | reflexivity]. }
  destruct (Nat.eq_dec (passwordLen s) 0) as [Hl | Hl].
  - eexists. split; [apply (clear_empty s Hl) |]. cbn. now rewrite Hseed.
  - destruct (password s) as [b |] eqn:Hb; [| now elim (C3 Hl)].
    destruct (passwordPad s) as [p |] eqn:Hp; [| elim Hl; now apply C1].
    pose proof (C2 p eq_refl) as Hlen. pose proof (C4 b eq_refl) as Hlb.
    eexists. split; [apply (clear_with_pad s b p Hb Hp); lia |]. cbn. now rewrite Hseed.
Qed.

Lemma seeded_idle (s : state) : needSeed s = 0 -> seeded getpid time0 s = s.
Proof. unfold seeded. now intros ->. Qed.

(** C1. From any consistent state holding a password in plaintext,
    whatever its length, [encryptPassword] XORs the buffer with the
    pad and marks it obfuscated, and [decryptPassword] after it XORs
    with the same pad and leaves the buffer byte for byte as it was. *)
Theorem round_trip (s : state) (b : buffer) :
  consistent s -> encrypted s = 0 -> password s = Some b ->
  exists (s1 s2 : state) (pad : buffer),
    run (encryptPassword random_seq getpid time0) s = Some s1 /\
    encrypted s1 = 1 /\ passwordPad s1 = Some pad /\
    password s1 = Some (xor_prefix (passwordLen s1) b pad) /\
    run decryptPassword s1 = Some s2 /\
    encrypted s2 = 0 /\ passwordPad s2 = Some pad /\
    password s2 = Some b.
Proof.
  intros C He Hb. pose proof C as [C1 C2 C3 C4 C5].
  destruct (seeded_fields s) as (Fb & Fe & Fp & Fl & Fr).
  unfold run.
  destruct (passwordPad s) as [p |] eqn:Hp.
  - pose proof (C2 p eq_refl) as Hlen. pose proof (C4 b Hb) as Hlb.
    rewrite (encrypt_with_pad s b p He Hb Hp) by lia. cbn [option_map snd].
    set (s1 := set_encrypted 1 _).
    assert (H1 : password s1 = Some (xor_prefix (passwordLen s) b p)) by reflexivity.
    assert (H2 : passwordPad s1 = Some p) by (cbn; now rewrite Fp).
    assert (H3 : passwordLen s1 = passwordLen s) by (cbn; now rewrite Fl).
    assert (H4 : encrypted s1 <> 0) by (cbn; discriminate).
    exists s1, (set_encrypted 0 (set_password
                  (Some (xor_prefix (passwordLen s1) (xor_prefix (passwordLen s) b p) p)) s1)), p.
    rewrite (decrypt_with_pad s1 _ p H4 H1 H2) by (rewrite H3, ?xor_prefix_length; lia).
    rewrite H3. repeat split; try assumption.
    cbn [password set_encrypted set_password]. now rewrite xor_prefix_involutive.
  - assert (Hplain : plaintext s = Some b) by (unfold plaintext; now rewrite Hb, He).
    destruct (C5 b Hplain) as (n & Hn & _).
    pose proof (strlen_lt b n Hn) as Hlt.
    rewrite (encrypt_fresh s b n He Hb Hp Hn). cbn [option_map snd].
    pose proof (draws_length (rand_seed (seeded getpid time0 s)) 1
                  (rand_count (seeded getpid time0 s)) (S n)) as Hpad.
    remember (draws random_seq (rand_seed (seeded getpid time0 s)) 1
                    (rand_count (seeded getpid time0 s)) (S n)) as pad eqn:Epad.
    set (s1 := mkState _ _ _ _ _ _ _ _).
    assert (H4 : encrypted s1 <> 0) by (cbn; discriminate).
    exists s1, (set_encrypted 0 (set_password
                  (Some (xor_prefix (passwordLen s1) (xor_prefix (S n) b pad) pad)) s1)), pad.
    rewrite (decrypt_with_pad s1 (xor_prefix (S n) b pad) pad H4 eq_refl eq_refl)
      by (cbn [passwordLen s1]; rewrite ?xor_prefix_length; lia).
    repeat split.
    cbn [password passwordLen set_encrypted set_password s1]. now rewrite xor_prefix_involutive.
Qed.

(** C10. Each of the three operations, run in a consistent state,
    completes without touching memory outside the two blocks and
    leaves a consistent state, the two toggles with the same password
    behind the buffer; in a consistent state the pad block has exactly
    [passwordLen] bytes and the secret block at least as many. *)
Theorem invariant_preserved (s : state) :
  consistent s ->
  (exists s', run (encryptPassword random_seq getpid time0) s = Some s' /\
              consistent s' /\ plaintext s' = plaintext s) /\
  (exists s', run decryptPassword s = Some s' /\
              consistent s' /\ plaintext s' = plaintext s) /\
  (exists s', run (clearPassword random_seq getpid time0) s = Some s' /\ consistent s') /\
  (forall b p, password s = Some b -> passwordPad s = Some p ->
     (passwordLen s <= List.length b)%nat /\ passwordLen s = List.length p).
Proof.
  intros C. unfold run. split; [| split; [| split]].
  - destruct (encrypt_consistent s C) as (s' & E & C' & P'). exists s'. now rewrite E.
  - destruct (decrypt_consistent s C) as (s' & E & C' & P'). exists s'. now rewrite E.
  - destruct (clear_consistent s C) as (s' & E & Hb & Hp & Hl & _). exists s'.
    rewrite E. split; [reflexivity | now apply consistent_empty].
  - intros b p Hb Hp. destruct C as [C1 C2 C3 C4 C5].
    split; [now apply C4 | symmetry; now apply C2].
Qed.

(** C8, as the code has it. None of the operations reports an
    error: each completes in every consistent state.
    [encryptPassword] returns at once, the state untouched, when the
    password is already marked obfuscated or [options.password] is a
    null pointer; [decryptPassword] does so when the password is not
    marked obfuscated or the password or the pad is missing;
    [clearPassword] with no stored length completes and leaves no
    secret, no pad and length zero.  An empty password is a password:
    on a string of length zero with no pad stored, [encryptPassword]
    makes a pad of one byte, XORs the terminator with it, stores the
    length 1 and marks the password obfuscated. *)
Theorem no_op_cases (s : state) :
  (encrypted s <> 0 \/ password s = None ->
   run (encryptPassword random_seq getpid time0) s = Some s) /\
  (encrypted s = 0 \/ password s = None \/ passwordPad s = None ->
   run decryptPassword s = Some s) /\
  (passwordLen s = O ->
   exists s', run (clearPassword random_seq getpid time0) s = Some s' /\
              password s' = None /\ passwordPad s' = None /\ passwordLen s' = O) /\
  (forall b, encrypted s = 0 -> password s = Some b -> passwordPad s = None ->
     strlen b = Some O ->
     exists s' pad,
       run (encryptPassword random_seq getpid time0) s = Some s' /\
       pad = draws random_seq (rand_seed (seeded getpid time0 s)) 1
                   (rand_count (seeded getpid time0 s)) 1 /\
       encrypted s' = 1 /\ passwordLen s' = 1%nat /\ passwordPad s' = Some pad /\
       password s' = Some (xor_prefix 1 b pad)) /\
  (consistent s ->
   (exists s', run (encryptPassword random_seq getpid time0) s = Some s') /\
   (exists s', run decryptPassword s = Some s') /\
   (exists s', run (clearPassword random_seq getpid time0) s = Some s')).
Proof.
  unfold run. split; [| split; [| split; [| split]]].
  - intros H. now rewrite (encrypt_noop s H).
  - intros H. now rewrite (decrypt_noop s H).
  - intros H. rewrite (clear_empty s H). cbn [option_map snd]. eexists. now split.
  - intros b He Hb Hp Hn. pose proof (encrypt_fresh s b O He Hb Hp Hn) as E.
    cbv zeta in E. rewrite E. cbn [option_map snd].
    eexists _, _. split; [reflexivity |]. split; [reflexivity |]. now repeat split.
  - intros C. split; [| split].
    + destruct (encrypt_consistent s C) as (s' & E & _). exists s'. now rewrite E.
    + destruct (decrypt_consistent s C) as (s' & E & _). exists s'. now rewrite E.
    + destruct (clear_consistent s C) as (s' & E & _). exists s'. now rewrite E.
Qed.

(** C9, on a password that was supplied and never obfuscated:
    [passwordLen] is still zero, the loop of [clearPassword] does not
    run, and the block goes to [free] holding the password as
    supplied. *)
Theorem dispose_before_first_protect (b : buffer) :
  exists s', run (clearPassword random_seq getpid time0) (supplyPassword b initial) = Some s' /\
             released s' = [b] /\
             password s' = None /\ passwordPad s' = None /\ passwordLen s' = O.
Proof.
  unfold run. rewrite (clear_empty (supplyPassword b initial) eq_refl).
  cbn [option_map snd]. eexists. split; [reflexivity |]. now repeat split.
Qed.

(** C4, as the code has it. [encryptPassword] makes a pad only when
    none is stored.  [clearPassword] discards the pad and leaves
    [options.encrypted] as it was: on a password then supplied in
    plaintext and marked not obfuscated, [encryptPassword] makes a pad
    of [strlen] plus one bytes from the next values of [random()] and
    XORs the password with it, and on a password stored while the flag
    is still set it does nothing.  On a password that takes the place
    of another while the pad of that one is still stored,
    [encryptPassword] keeps that pad and the stored length and XORs
    that many bytes of the new block with the pad; on a block with
    fewer bytes than that it goes beyond the end of the block. *)
Theorem pad_regenerated_after_dispose (s : state) (b : buffer) (n : nat) :
  strlen b = Some n -> consistent s ->
  (exists s1,
     run (clearPassword random_seq getpid time0) s = Some s1 /\
     passwordPad s1 = None /\ encrypted s1 = encrypted s /\
     (exists s3 pad,
        run (encryptPassword random_seq getpid time0) (supplyPassword b s1) = Some s3 /\
        pad = draws random_seq (rand_seed s1) 1 (rand_count s1) (S n) /\
        encrypted s3 = 1 /\ passwordLen s3 = S n /\ passwordPad s3 = Some pad /\
        password s3 = Some (xor_prefix (S n) b pad)) /\
     (encrypted s <> 0 ->
      run (encryptPassword random_seq getpid time0) (set_password (Some b) s1)
      = Some (set_password (Some b) s1))) /\
  (forall p, passwordPad s = Some p ->
     ((passwordLen s <= List.length b)%nat ->
      exists s',
        run (encryptPassword random_seq getpid time0) (supplyPassword b s) = Some s' /\
        encrypted s' = 1 /\ passwordPad s' = Some p /\ passwordLen s' = passwordLen s /\
        password s' = Some (xor_prefix (passwordLen s) b p)) /\
     ((List.length b < passwordLen s)%nat ->
      run (encryptPassword random_seq getpid time0) (supplyPassword b s) = None)).
Proof.
  intros Hn C. unfold run. split.
  - destruct (clear_consistent s C) as (s1 & E & Hb & Hp & Hl & He & Hseed).
    rewrite E. cbn [option_map snd].
    exists s1. split; [reflexivity |]. split; [assumption |]. split; [assumption |]. split.
    + assert (Hidle : seeded getpid time0 (supplyPassword b s1) = supplyPassword b s1)
        by now apply seeded_idle.
      pose proof (encrypt_fresh (supplyPassword b s1) b n eq_refl eq_refl Hp Hn) as E3.
      cbv zeta in E3. rewrite Hidle in E3. rewrite E3. cbn [option_map snd].
      eexists _, _. split; [reflexivity |]. split; [reflexivity |]. now repeat split.
    + intros Hne. rewrite encrypt_noop; [reflexivity |]. left. cbn. now rewrite He.
  - intros p Hp. pose proof (pad_length s C p Hp) as Hlp.
    assert (Hp' : passwordPad (supplyPassword b s) = Some p) by exact Hp.
    split; intros Hlen.
    + destruct (seeded_fields (supplyPassword b s)) as (Fb & Fe & Fp & Fl & Fr).
      rewrite (encrypt_with_pad (supplyPassword b s) b p eq_refl eq_refl Hp')
        by (cbn [passwordLen supplyPassword set_encrypted set_password]; lia).
      cbn [option_map snd]. eexists. split; [reflexivity |].
      cbn. rewrite Fp, Fl. now repeat split.
    + now rewrite (encrypt_short_block (supplyPassword b s) b p eq_refl eq_refl Hp' Hlen).
Qed.

(** The invariant holds in every state the module goes through. *)
Lemma reachable_consistent (s : state) :
  reachable random_seq getpid time0 s -> consistent s.
Proof.
  induction 1 as [| s b n _ IH Hp Hn | s s' _ IH E | s s' _ IH E | s s' _ IH E];
    try unfold run in E.
  - now apply consistent_empty.
  - now apply (consistent_supply s b n).
  - destruct (encrypt_consistent s IH) as (s1 & E1 & C1 & _).
    rewrite E1 in E. cbn [option_map snd] in E. apply some_eq in E. now subst s'.
  - destruct (decrypt_consistent s IH) as (s1 & E1 & C1 & _).
    rewrite E1 in E. cbn [option_map snd] in E. apply some_eq in E. now subst s'.
  - destruct (clear_consistent s IH) as (s1 & E1 & Hb & Hp & Hl & _).
    rewrite E1 in E. cbn [option_map snd] in E. apply some_eq in E. subst s'.
    now apply consistent_empty.
Qed.

(** Disposal of a secret that has been obfuscated at least once: the
    pad block and the first [passwordLen] bytes of the secret block, the
    password and its terminator, hold successive values of
    [(char)random()] when they are handed to [free]. *)
Theorem dispose_scrubs (s : state) (b p : buffer) :
  consistent s -> password s = Some b -> passwordPad s = Some p ->
  let s1 := seeded getpid time0 s in
  let len := passwordLen s in
  exists s',
    run (clearPassword random_seq getpid time0) s = Some s' /\
    released s' =
      draws random_seq (rand_seed s1) 2 (S (rand_count s1)) len
      :: (draws random_seq (rand_seed s1) 2 (rand_count s1) len ++ skipn len b)
      :: released s /\
    password s' = None /\ passwordPad s' = None /\ passwordLen s' = O.
Proof.
  intros [C1 C2 C3 C4 C5] Hb Hp s1 len.
  pose proof (C2 p Hp) as Hlen. pose proof (C4 b Hb) as Hlb.
  unfold run. rewrite (clear_with_pad s b p Hb Hp) by lia.
  cbn [option_map snd]. eexists. split; [reflexivity |].
  cbn [released password passwordPad passwordLen].
  rewrite (skipn_all2 p) by lia. rewrite app_nil_r. now repeat split.
Qed.

End Runs.

Lemma consistent_supplied : consistent supplied.
Proof.
  exact (consistent_supply initial sec 3
           (consistent_empty initial eq_refl eq_refl eq_refl) eq_refl eq_refl).
Qed.

Lemma consistent_obfuscated : consistent obfuscated.
Proof.
  constructor; unfold plaintext; cbn.
  - split; discriminate.
  - intros p E. apply some_eq in E. now subst p.
  - discriminate.
  - intros b E. apply some_eq in E. subst b. cbn. lia.
  - intros b E. apply some_eq in E. subst b. exists 3%nat. now split.
Qed.

Lemma dispose_scrubs_witness :
  consistent obfuscated /\
  exists s',
    run (clearPassword sample_seq sample_pid sample_time) obfuscated = Some s' /\
    released s' = [[10; 228; 190; 152]; [157; 119; 81; 43]] /\
    password s' = None /\ passwordPad s' = None /\ passwordLen s' = O.
Proof.
  exact (conj consistent_obfuscated
           (dispose_scrubs sample_seq sample_pid sample_time obfuscated
              [154; 51; 160; 48] [233; 86; 195; 48]
              consistent_obfuscated eq_refl eq_refl)).
Defined.

Lemma round_trip_witness :
  consistent supplied /\ encrypted supplied = 0 /\ password supplied = Some sec /\
  exists (s1 s2 : state) (pad : buffer),
    run (encryptPassword sample_seq sample_pid sample_time) supplied = Some s1 /\
    encrypted s1 = 1 /\ passwordPad s1 = Some pad /\
    password s1 = Some (xor_prefix (passwordLen s1) sec pad) /\
    run decryptPassword s1 = Some s2 /\
    encrypted s2 = 0 /\ passwordPad s2 = Some pad /\
    password s2 = Some sec.
Proof.
  exact (conj consistent_supplied (conj eq_refl (conj eq_refl
           (round_trip sample_seq sample_pid sample_time supplied sec
                       consistent_supplied eq_refl eq_refl)))).
Defined.

Lemma invariant_preserved_witness :
  consistent obfuscated /\
  (exists s', run (encryptPassword sample_seq sample_pid sample_time) obfuscated = Some s' /\
              consistent s' /\ plaintext s' = plaintext obfuscated) /\
  (exists s', run decryptPassword obfuscated = Some s' /\
              consistent s' /\ plaintext s' = plaintext obfuscated) /\
  (exists s', run (clearPassword sample_seq sample_pid sample_time) obfuscated = Some s' /\
              consistent s') /\
  (forall b p, password obfuscated = Some b -> passwordPad obfuscated = Some p ->
     (passwordLen obfuscated <= List.length b)%nat /\
     passwordLen obfuscated = List.length p).
Proof.
  exact (conj consistent_obfuscated
           (invariant_preserved sample_seq sample_pid sample_time obfuscated
                                consistent_obfuscated)).
Defined.

Lemma no_op_cases_witness :
  run (encryptPassword sample_seq sample_pid sample_time) obfuscated = Some obfuscated /\
  run (encryptPassword sample_seq sample_pid sample_time) initial = Some initial /\
  run decryptPassword revealed = Some revealed /\
  run decryptPassword initial = Some initial /\
  (exists s', run (clearPassword sample_seq sample_pid sample_time) initial = Some s' /\
              password s' = None /\ passwordPad s' = None /\ passwordLen s' = O) /\
  (exists s' pad,
     run (encryptPassword sample_seq sample_pid sample_time) (supplyPassword [0] initial)
       = Some s' /\
     pad = draws sample_seq
             (rand_seed (seeded sample_pid sample_time (supplyPassword [0] initial))) 1
             (rand_count (seeded sample_pid sample_time (supplyPassword [0] initial))) 1 /\
     encrypted s' = 1 /\ passwordLen s' = 1%nat /\ passwordPad s' = Some pad /\
     password s' = Some (xor_prefix 1 [0] pad)) /\
  consistent obfuscated /\
  (exists s', run (encryptPassword sample_seq sample_pid sample_time) obfuscated = Some s') /\
  (exists s', run decryptPassword obfuscated = Some s') /\
  (exists s', run (clearPassword sample_seq sample_pid sample_time) obfuscated = Some s').
Proof.
  pose (E := no_op_cases sample_seq sample_pid sample_time).
  refine (conj (proj1 (E obfuscated) (or_introl _))
         (conj (proj1 (E initial) (or_intror eq_refl))
         (conj (proj1 (proj2 (E revealed)) (or_introl eq_refl))
         (conj (proj1 (proj2 (E initial)) (or_intror (or_introl eq_refl)))
         (conj (proj1 (proj2 (proj2 (E initial))) eq_refl)
         (conj (proj1 (proj2 (proj2 (proj2 (E (supplyPassword [0] initial)))))
                  [0] eq_refl eq_refl eq_refl eq_refl)
         (conj consistent_obfuscated
               (proj2 (proj2 (proj2 (proj2 (E obfuscated)))) consistent_obfuscated)))))))).
  cbn. discriminate.
Defined.

(** The empty password, supplied and never obfuscated before:
    [encryptPassword] does not leave it as it is. *)
Lemma empty_secret_obfuscated :
  Guard.strlen [0] = Some O /\
  password (supplyPassword [0] initial) = Some [0] /\
  encrypted (supplyPassword [0] initial) = 0 /\
  run (encryptPassword sample_seq sample_pid sample_time) (supplyPassword [0] initial)
    = Some (mkState (Some [233]) 1 (Some [233]) 1 0 4242000 1 []).
Proof. repeat split. Qed.

Lemma pad_regenerated_after_dispose_witness :
  strlen hello = Some 6%nat /\ consistent obfuscated /\
  (exists s1,
     run (clearPassword sample_seq sample_pid sample_time) obfuscated = Some s1 /\
     passwordPad s1 = None /\ encrypted s1 = encrypted obfuscated /\
     (exists s3 pad,
        run (encryptPassword sample_seq sample_pid sample_time) (supplyPassword hello s1)
          = Some s3 /\
        pad = draws sample_seq (rand_seed s1) 1 (rand_count s1) 7 /\
        encrypted s3 = 1 /\ passwordLen s3 = 7%nat /\ passwordPad s3 = Some pad /\
        password s3 = Some (xor_prefix 7 hello pad)) /\
     (encrypted obfuscated <> 0 ->
      run (encryptPassword sample_seq sample_pid sample_time) (set_password (Some hello) s1)
      = Some (set_password (Some hello) s1))) /\
  (forall p, passwordPad obfuscated = Some p ->
     ((passwordLen obfuscated <= List.length hello)%nat ->
      exists s',
        run (encryptPassword sample_seq sample_pid sample_time) (supplyPassword hello obfuscated)
          = Some s' /\
        encrypted s' = 1 /\ passwordPad s' = Some p /\
        passwordLen s' = passwordLen obfuscated /\
        password s' = Some (xor_prefix (passwordLen obfuscated) hello p)) /\
     ((List.length hello < passwordLen obfuscated)%nat ->
      run (encryptPassword sample_seq sample_pid sample_time) (supplyPassword hello obfuscated)
      = None)).
Proof.
  exact (conj eq_refl (conj consistent_obfuscated
           (pad_regenerated_after_dispose sample_seq sample_pid sample_time
              obfuscated hello 6 eq_refl consistent_obfuscated))).
Defined.

(** A password replaced without [clearPassword] in between: ["sec"] is
    obfuscated and revealed, ["hello!"] takes its place, and
    [encryptPassword] XORs it with the four bytes of the pad made for
    ["sec"]. *)
Lemma pad_reused_without_dispose :
  run (encryptPassword sample_seq sample_pid sample_time) supplied = Some obfuscated /\
  run decryptPassword obfuscated = Some revealed /\
  run (encryptPassword sample_seq sample_pid sample_time) (supplyPassword hello revealed)
    = Some (mkState (Some [129; 51; 175; 92; 111; 33; 0]) 1 (passwordPad obfuscated)
                    4 0 4242000 4 []) /\
  passwordPad obfuscated = Some [233; 86; 195; 48] /\
  strlen hello = Some 6%nat.
Proof. repeat split. Qed.

End GuardFacts.

(** * The grammar of [parseProxy] *)

Module GrammarFacts.
Import CStr CStrFacts Proxy ProxySpec ProxyFacts GrammarSpec.
Local Open Scope string_scope.
Local Open Scope Z_scope.

Lemma all_chars_app (f : ascii -> bool) (a b : string) :
  all_chars f (a ++ b) = all_chars f a && all_chars f b.
Proof. induction a as [| c a IH]; cbn [append all_chars]; [reflexivity |]. now rewrite IH, andb_assoc. Qed.

Lemma append_empty (s : string) : s ++ "" = s.
Proof. induction s as [| c s IH]; cbn [append]; [reflexivity | now rewrite IH]. Qed.

Lemma plain_host_other (h r : string) :
  is_host h = true -> host_char (peek r) = false -> Ascii.eqb (peek r) ":" = false ->
  (strncasecmp (h ++ r) "http://" 7 =? 0) = false.
Proof.
  intros Hh Hr Hc. apply is_host_inv in Hh. destruct Hh as [Hne Hh].
  assert (Hr' : peek r = NUL \/ peek r = "/"%char).
  { destruct (host_char_false _ Hr) as [E | [E | E]]; auto. rewrite E in Hc. discriminate. }
  destruct h as [| c0 [| c1 [| c2 [| c3 [| c4 h]]]]]; [congruence | ..];
    cbn [all_chars] in Hh;
    repeat (apply andb_true_iff in Hh; let H := fresh "Hc" in destruct Hh as [H Hh]);
    repeat (rewrite strncasecmp_step; cbn [append peek next]);
    change (tolower "h") with "h"%char; change (tolower "t") with "t"%char;
    change (tolower "p") with "p"%char; change (tolower ":") with ":"%char;
    change (tolower "/") with "/"%char;
    rewrite !and_nul by reflexivity;
    rewrite ?ci_colon, ?ci_slash; cbn [strncasecmp Z.eqb].
  - destruct Hr' as [E | E]; rewrite E; cbn; now rewrite !andb_false_r.
  - destruct Hr' as [E | E]; rewrite E; cbn; now rewrite !andb_false_r.
  - destruct Hr' as [E | E]; rewrite E; cbn; now rewrite !andb_false_r.
  - rewrite Hc. cbn [andb]. now rewrite !andb_false_r.
  - rewrite (host_char_colon _ Hc4). cbn [andb]. now rewrite !andb_false_r.
Qed.

Lemma tail_first (dm : data_model) (t : string) (q : Z) :
  tail_port dm t q -> host_char (peek t) = false.
Proof. now destruct 1. Qed.

Lemma after_host_tail (dm : data_model) (t : string) (q : Z) :
  tail_port dm t q -> after_host dm t 80 = Some q.
Proof.
  destruct 1 as [| | | | d Hd Hmax | d Hd Hmax]; try reflexivity.
  - change (":" ++ d) with (String ":" d). rewrite <- (append_empty d) at 1.
    rewrite (after_host_port dm d "" Hd eq_refl).
    apply Z.ltb_ge in Hmax. now rewrite Hmax.
  - change (":" ++ d ++ "/") with (String ":" (d ++ "/")).
    rewrite (after_host_port dm d "/" Hd eq_refl).
    apply Z.ltb_ge in Hmax. now rewrite Hmax.
Qed.

Lemma tail_plain (dm : data_model) (h t : string) (q : Z) :
  is_host h = true -> tail_port dm t q ->
  (strncasecmp (h ++ t) "http://" 7 =? 0) = false.
Proof.
  intros Hh Ht. destruct Ht as [| | | | d Hd Hmax | d Hd Hmax].
  - now apply plain_host_other.
  - now apply plain_host_other.
  - now apply (plain_host_colon h "").
  - now apply (plain_host_colon h "/").
  - change (":" ++ d) with (String ":" d). apply plain_host_colon; [assumption |].
    rewrite <- (append_empty d). now apply dslash_port.
  - change (":" ++ d ++ "/") with (String ":" (d ++ "/")). apply plain_host_colon; [assumption |].
    now apply dslash_port.
Qed.

(** A host and a tail, once the scheme is gone. *)
Lemma host_tail_parsed (dm : data_model) (h t : string) (q : Z) (p : proxy_t) :
  is_host h = true -> tail_port dm t q ->
  parse_host_port dm (h ++ t) p = (0, mkProxy (Some h) q).
Proof.
  intros Hh Ht. rewrite (parse_host_port_app dm h t p Hh (tail_first dm t q Ht)).
  now rewrite (after_host_tail dm t q Ht).
Qed.

(** The scheme is dropped, and a host and its tail are not taken for
    one. *)
Lemma scheme_dropped (dm : data_model) (sc : scheme) (h t : string) (q : Z) (p : proxy_t) :
  is_host h = true -> tail_port dm t q ->
  parseProxy dm (Some (scheme_text sc ++ h ++ t)) p = parse_host_port dm (h ++ t) p.
Proof.
  intros Hh Ht. destruct sc as [| u0 u1 u2 u3].
  - cbn [scheme_text append]. apply parseProxy_plain. now apply (tail_plain dm h t q).
  - apply parseProxy_http.
Qed.

(** X2. Every string of the grammar is accepted: an optional scheme in
    any case, a host, and one of the tails: nothing, a slash, a colon,
    a colon and a slash, or a colon and digits not beyond [LONG_MAX],
    with or without a slash.  The host stored is the host of the
    string, and the port is 80 or the digits' value cast to [int]. *)
Theorem grammar_accepted (dm : data_model) (sc : scheme) (h t : string) (q : Z) (p : proxy_t) :
  is_host h = true -> tail_port dm t q ->
  parseProxy dm (Some (scheme_text sc ++ h ++ t)) p = (0, mkProxy (Some h) q).
Proof.
  intros Hh Ht. rewrite (scheme_dropped dm sc h t q p Hh Ht).
  now apply host_tail_parsed.
Qed.

Lemma grammar_accepted_witness :
  is_host "proxy.example.com" = true /\
  tail_port LP64 (":" ++ "3128" ++ "/") (int_of_long (decimal "3128")) /\
  parseProxy LP64 (Some "HTTP://proxy.example.com:3128/") stored
    = (0, mkProxy (Some "proxy.example.com") 3128).
Proof.
  pose (T := tail_digits_slash LP64 "3128" eq_refl ltac:(vm_compute; discriminate)).
  exact (conj eq_refl (conj T
           (grammar_accepted LP64 (Http true true true true) "proxy.example.com"
              (":" ++ "3128" ++ "/") _ stored eq_refl T))).
Defined.

Lemma int_of_long_range (v : Z) :
  - 2 ^ 31 <= int_of_long v <= INT_MAX /\ (v - int_of_long v) mod 2 ^ 32 = 0.
Proof.
  unfold int_of_long, INT_MAX.
  pose proof (Z.mod_pos_bound (v + 2 ^ 31) (2 ^ 32) ltac:(lia)) as B.
  split; [lia |].
  rewrite (Z.mod_eq (v + 2 ^ 31) (2 ^ 32)) by lia.
  replace (v - (v + 2 ^ 31 - 2 ^ 32 * ((v + 2 ^ 31) / 2 ^ 32) - 2 ^ 31))
    with (((v + 2 ^ 31) / 2 ^ 32) * 2 ^ 32) by ring.
  apply Z_mod_mult.
Qed.

(** X4. Where [long] is wider than [int], a port number above
    [INT_MAX] that [strtol] can represent is accepted, and the port
    stored is the number reduced modulo [2^32] into the range of
    [int], so a different number. *)
Theorem wide_port_wraps (dm : data_model) (sc : scheme) (h d : string) (p : proxy_t) :
  is_host h = true -> is_port d = true ->
  INT_MAX < decimal d <= LONG_MAX dm ->
  exists q,
    parseProxy dm (Some (scheme_text sc ++ h ++ ":" ++ d)) p = (0, mkProxy (Some h) q) /\
    - 2 ^ 31 <= q <= INT_MAX /\ q <> decimal d /\ (decimal d - q) mod 2 ^ 32 = 0.
Proof.
  intros Hh Hd [Hlo Hhi]. exists (int_of_long (decimal d)).
  destruct (int_of_long_range (decimal d)) as [R M].
  split; [| split; [assumption | split; [lia | assumption]]].
  assert (Ht : tail_port dm (":" ++ d) (int_of_long (decimal d)))
    by now apply tail_digits.
  rewrite (scheme_dropped dm sc h (":" ++ d) _ p Hh Ht).
  now apply host_tail_parsed.
Qed.

Lemma wide_port_wraps_witness :
  INT_MAX < decimal "4294967376" <= LONG_MAX LP64 /\
  exists q,
    parseProxy LP64 (Some ("host" ++ ":" ++ "4294967376")) stored
      = (0, mkProxy (Some "host") q) /\
    - 2 ^ 31 <= q <= INT_MAX /\ q <> decimal "4294967376" /\
    (decimal "4294967376" - q) mod 2 ^ 32 = 0.
Proof.
  assert (H : INT_MAX < decimal "4294967376" <= LONG_MAX LP64)
    by (split; [reflexivity | vm_compute; discriminate]).
  exact (conj H (wide_port_wraps LP64 NoScheme "host" "4294967376" stored
                   eq_refl eq_refl H)).
Defined.

Lemma ci_h (c : ascii) : Ascii.eqb (tolower c) "h" = true -> c = "h"%char \/ c = "H"%char.
Proof. destruct c as [[] [] [] [] [] [] [] []]; cbv; intros H; auto; discriminate H. Qed.

Lemma ci_t (c : ascii) : Ascii.eqb (tolower c) "t" = true -> c = "t"%char \/ c = "T"%char.
Proof. destruct c as [[] [] [] [] [] [] [] []]; cbv; intros H; auto; discriminate H. Qed.

Lemma ci_p (c : ascii) : Ascii.eqb (tolower c) "p" = true -> c = "p"%char \/ c = "P"%char.
Proof. destruct c as [[] [] [] [] [] [] [] []]; cbv; intros H; auto; discriminate H. Qed.

Lemma peek_cons (s : string) (c : ascii) :
  peek s = c -> c <> NUL -> s = String c (next s).
Proof. destruct s as [| a s]; cbn [peek next]; intros E N; [congruence | now subst]. Qed.

(** A string on which the scheme test succeeds starts with one of the
    spellings of the scheme. *)
Lemma scheme_split (s : string) :
  (strncasecmp s "http://" 7 =? 0) = true ->
  exists sc, sc <> NoScheme /\ s = scheme_text sc ++ advance 7 s.
Proof.
  repeat (rewrite strncasecmp_step; cbn [peek next]).
  change (tolower "h") with "h"%char; change (tolower "t") with "t"%char;
    change (tolower "p") with "p"%char; change (tolower ":") with ":"%char;
    change (tolower "/") with "/"%char.
  rewrite !and_nul by reflexivity. rewrite ?ci_colon, ?ci_slash.
  cbn [strncasecmp Z.eqb]. rewrite andb_true_r. intros H.
  repeat (apply andb_true_iff in H; let H0 := fresh "T" in destruct H as [H0 H]).
  apply ci_h in T. apply ci_t in T0. apply ci_t in T1. apply ci_p in T2.
  apply Ascii.eqb_eq in T3, T4, H.
  set (s1 := next s) in *. set (s2 := next s1) in *. set (s3 := next s2) in *.
  set (s4 := next s3) in *. set (s5 := next s4) in *. set (s6 := next s5) in *.
  assert (E0 : exists u0 : bool, s = String (if u0 then "H" else "h")%char s1).
  { destruct T as [E | E]; [exists false | exists true]; apply peek_cons; now rewrite ?E. }
  assert (E1 : exists u1 : bool, s1 = String (if u1 then "T" else "t")%char s2).
  { destruct T0 as [E | E]; [exists false | exists true]; apply peek_cons; now rewrite ?E. }
  assert (E2 : exists u2 : bool, s2 = String (if u2 then "T" else "t")%char s3).
  { destruct T1 as [E | E]; [exists false | exists true]; apply peek_cons; now rewrite ?E. }
  assert (E3 : exists u3 : bool, s3 = String (if u3 then "P" else "p")%char s4).
  { destruct T2 as [E | E]; [exists false | exists true]; apply peek_cons; now rewrite ?E. }
  assert (E4 : s4 = String ":" s5) by (apply peek_cons; now rewrite ?T3).
  assert (E5 : s5 = String "/" s6) by (apply peek_cons; now rewrite ?T4).
  assert (E6 : s6 = String "/" (next s6)) by (apply peek_cons; now rewrite ?H).
  destruct E0 as [u0 E0], E1 as [u1 E1], E2 as [u2 E2], E3 as [u3 E3].
  exists (Http u0 u1 u2 u3). split; [discriminate |].
  change (advance 7 s) with (next s6).
  cbn [scheme_text append]. now rewrite <- E6, <- E5, <- E4, <- E3, <- E2, <- E1.
Qed.

Lemma strcspn_split (s : string) :
  s = myStrndup s (strcspn s ":/") ++ advance (strcspn s ":/") s /\
  all_chars host_char (myStrndup s (strcspn s ":/")) = true /\
  host_char (peek (advance (strcspn s ":/") s)) = false.
Proof.
  induction s as [| c s IH]; [now repeat split |].
  cbn [strcspn]. rewrite reject_test.
  destruct (host_char c) eqn:Hc; cbn [negb]; [| now repeat split].
  cbn [myStrndup advance peek next append all_chars]. rewrite Hc.
  destruct IH as (E & Hall & Hr). now rewrite <- E.
Qed.

Lemma digit_split (t : string) :
  exists d r, t = d ++ r /\ all_chars isdigit d = true /\ isdigit (peek r) = false.
Proof.
  induction t as [| c t (d & r & E & Hd & Hr)]; [now exists "", "" |].
  destruct (isdigit c) eqn:Hc.
  - exists (String c d), r. cbn [append all_chars]. now rewrite Hc, <- E.
  - now exists "", (String c t).
Qed.

Lemma peek_nul (r : string) :
  no_nul r = true -> Ascii.eqb (peek r) NUL = true -> r = "".
Proof.
  destruct r as [| c r]; [reflexivity |]. cbn [no_nul all_chars peek].
  intros H E. rewrite E in H. discriminate.
Qed.

Lemma after_port_sound (r : string) (x q : Z) :
  no_nul r = true -> after_port r x = Some q -> q = x /\ (r = "" \/ r = "/").
Proof.
  intros Hn H. split; [now apply (after_port_value r) |].
  unfold after_port in H.
  destruct (Ascii.eqb (peek r) "/") eqn:Es.
  - destruct (Ascii.eqb (peek (next r)) NUL) eqn:En; [| discriminate].
    right. apply Ascii.eqb_eq in Es.
    rewrite (peek_cons r "/" Es ltac:(discriminate)) in Hn |- *.
    cbn [no_nul all_chars] in Hn. apply andb_true_iff in Hn. destruct Hn as [_ Hn].
    now rewrite (peek_nul (next r) Hn En).
  - destruct (Ascii.eqb (peek r) NUL) eqn:En; [| discriminate].
    left. now apply peek_nul.
Qed.

Lemma after_host_sound (dm : data_model) (t : string) (q : Z) :
  no_nul t = true -> after_host dm t 80 = Some q -> tail_port dm t q.
Proof.
  intros Hn H. unfold after_host in H.
  destruct (Ascii.eqb (peek t) ":") eqn:Ec.
  - apply Ascii.eqb_eq in Ec.
    rewrite (peek_cons t ":" Ec ltac:(discriminate)) in Hn |- *.
    cbn [no_nul all_chars] in Hn. apply andb_true_iff in Hn. destruct Hn as [_ Hn].
    set (t1 := next t) in *.
    destruct (isdigit (peek t1)) eqn:Hd.
    + destruct (digit_split t1) as (d & r & E & Hall & Hr).
      assert (Hp : is_port d = true).
      { unfold is_port. rewrite Hall, andb_true_r.
        destruct d as [| c d]; [| reflexivity].
        cbn [append] in E. rewrite E, Hr in Hd. discriminate. }
      rewrite E in H, Hn |- *. rewrite (strtol_digits dm d r Hp Hr) in H.
      unfold no_nul in Hn. rewrite all_chars_app in Hn.
      apply andb_true_iff in Hn. destruct Hn as [_ Hn].
      destruct (LONG_MAX dm <? decimal d) eqn:Hmax; cbn [st_end st_errno st_value] in H;
        [discriminate |].
      cbn [Z.eqb negb] in H. apply Z.ltb_ge in Hmax.
      destruct (after_port_sound r _ q Hn H) as [-> [-> | ->]].
      * rewrite append_empty. now apply (tail_digits dm d).
      * now apply (tail_digits_slash dm d).
    + destruct (after_port_sound t1 _ q Hn H) as [-> [-> | ->]]; constructor.
  - destruct (Ascii.eqb (peek t) "/") eqn:Es.
    + destruct (Ascii.eqb (peek (next t)) NUL) eqn:En; [| discriminate].
      injection H as <-. apply Ascii.eqb_eq in Es.
      rewrite (peek_cons t "/" Es ltac:(discriminate)) in Hn |- *.
      cbn [no_nul all_chars] in Hn. apply andb_true_iff in Hn. destruct Hn as [_ Hn].
      rewrite (peek_nul (next t) Hn En). constructor.
    + destruct (Ascii.eqb (peek t) NUL) eqn:En; [| discriminate].
      injection H as <-. rewrite (peek_nul t Hn En). constructor.
Qed.

(** X3. Whatever [parseProxy] accepts is a string of the grammar: a
    call that returns 0 on a string was given an optional scheme
    followed either by nothing, a colon or a slash where the host
    would start (and then it clears the host and keeps the port), or
    by a host and one of the tails, and it stores that host and the
    port of that tail. *)
Theorem accepted_is_grammar (dm : data_model) (s : string) (p r : proxy_t) :
  no_nul s = true -> parseProxy dm (Some s) p = (0, r) ->
  exists (sc : scheme) (rest : string),
    s = scheme_text sc ++ rest /\
    ((host_char (peek rest) = false /\ r = mkProxy None (port p)) \/
     (exists h t, rest = h ++ t /\ is_host h = true /\ tail_port dm t (port r) /\
                  host r = Some h)).
Proof.
  intros Hn H. unfold parseProxy in H.
  assert (G : forall rest, no_nul rest = true -> parse_host_port dm rest p = (0, r) ->
            (host_char (peek rest) = false /\ r = mkProxy None (port p)) \/
            (exists h t, rest = h ++ t /\ is_host h = true /\ tail_port dm t (port r) /\
                         host r = Some h)).
  { clear. intros rest Hn H. unfold parse_host_port in H.
    destruct (strcspn_split rest) as (E & Hall & Hr).
    destruct (strcspn rest ":/") as [| n] eqn:En.
    - left. cbn [Nat.eqb] in H. injection H as <-. cbn [advance] in Hr. now split.
    - right. cbn [Nat.eqb] in H. rewrite <- En in *.
      set (h := myStrndup rest (strcspn rest ":/")) in *.
      set (t := advance (strcspn rest ":/") rest) in *.
      assert (Hnt : no_nul t = true).
      { rewrite E in Hn. unfold no_nul in Hn. rewrite all_chars_app in Hn.
        now apply andb_true_iff in Hn. }
      destruct (after_host dm t 80) as [q |] eqn:Ea; [| discriminate].
      injection H as <-. exists h, t. cbn [port host].
      repeat split; try assumption; [| now apply after_host_sound].
      unfold is_host. rewrite Hall, andb_true_r.
      subst h. rewrite En. now destruct rest. }
  destruct (strncasecmp s "http://" 7 =? 0) eqn:Es.
  - destruct (scheme_split s Es) as (sc & _ & E). exists sc, (advance 7 s).
    split; [assumption |]. apply G; [| assumption].
    rewrite E in Hn. unfold no_nul in Hn. rewrite all_chars_app in Hn.
    now apply andb_true_iff in Hn.
  - exists NoScheme, s. split; [reflexivity |]. now apply G.
Qed.

Lemma accepted_is_grammar_witness :
  no_nul "http://proxy.example.com:3128/" = true /\
  parseProxy LP64 (Some "http://proxy.example.com:3128/") stored
    = (0, mkProxy (Some "proxy.example.com") 3128) /\
  exists (sc : scheme) (rest : string),
    "http://proxy.example.com:3128/" = scheme_text sc ++ rest /\
    ((host_char (peek rest) = false /\
      mkProxy (Some "proxy.example.com") 3128 = mkProxy None (port stored)) \/
     (exists h t, rest = h ++ t /\ is_host h = true /\
                  tail_port LP64 t (port (mkProxy (Some "proxy.example.com") 3128)) /\
                  host (mkProxy (Some "proxy.example.com") 3128) = Some h)).
Proof.
  exact (conj eq_refl (conj eq_refl
           (accepted_is_grammar LP64 "http://proxy.example.com:3128/" stored
              (mkProxy (Some "proxy.example.com") 3128) eq_refl eq_refl))).
Defined.

End GrammarFacts.

(** * Properties of [boolValue] *)

Module UtilFacts.
Import CStr CStrFacts Util UtilSpec GrammarSpec.
Local Open Scope string_scope.
Local Open Scope Z_scope.

Lemma tolower_nul (c : ascii) : Ascii.eqb (tolower c) NUL = Ascii.eqb c NUL.
Proof. destruct c as [[] [] [] [] [] [] [] []]; reflexivity. Qed.

Lemma dup_cstr (s : string) : myStrndup s (strlen s) = cstr s.
Proof.
  induction s as [| c s IH]; [reflexivity |]. cbn [strlen cstr].
  destruct (Ascii.eqb c NUL); [reflexivity |]. cbn [myStrndup peek next]. now rewrite IH.
Qed.

Lemma lower_loop_cstr (s : string) : lower_loop (cstr s) = lowercase (cstr s).
Proof.
  induction s as [| c s IH]; [reflexivity |]. cbn [cstr].
  destruct (Ascii.eqb c NUL) eqn:E; [reflexivity |].
  cbn [lower_loop lowercase]. now rewrite E, IH.
Qed.

Lemma no_nul_lower_cstr (s : string) : no_nul (lowercase (cstr s)) = true.
Proof.
  induction s as [| c s IH]; [reflexivity |]. cbn [cstr].
  destruct (Ascii.eqb c NUL) eqn:E; [reflexivity |].
  cbn [lowercase no_nul ProxySpec.all_chars]. rewrite tolower_nul, E. exact IH.
Qed.

(** On strings without NUL, [strcmp] is zero exactly on equal strings. *)
Lemma strcmp_eqb (a b : string) :
  no_nul a = true -> no_nul b = true -> (strcmp a b =? 0) = String.eqb a b.
Proof.
  revert b. induction a as [| c a IH]; intros b Ha Hb.
  - destruct b as [| d b]; [reflexivity |]. cbn [strcmp peek String.eqb].
    cbn [no_nul ProxySpec.all_chars] in Hb. apply andb_true_iff in Hb. destruct Hb as [Hd _].
    apply negb_true_iff in Hd. apply Z.eqb_neq. apply code_diff.
    rewrite Ascii.eqb_sym. exact Hd.
  - cbn [no_nul ProxySpec.all_chars] in Ha. apply andb_true_iff in Ha. destruct Ha as [Hc Ha].
    apply negb_true_iff in Hc.
    destruct b as [| d b]; cbn [strcmp peek next String.eqb].
    + rewrite Hc. apply Z.eqb_neq. now apply code_diff.
    + cbn [no_nul ProxySpec.all_chars] in Hb. apply andb_true_iff in Hb. destruct Hb as [_ Hb].
      destruct (Ascii.eqb c d) eqn:E.
      * rewrite Hc. now apply IH.
      * apply Z.eqb_neq. now apply code_diff.
Qed.

Ltac try_word w lit :=
  let E := fresh "E" in
  destruct (String.eqb w lit) eqn:E;
  [apply String.eqb_eq in E; rewrite E; reflexivity |].

(** [boolValue] as a lookup of the folded string in the two word lists. *)
Lemma boolValue_lookup (s : string) :
  boolValue (Some s) =
  if member (lowercase (cstr s)) truthy then 1
  else if member (lowercase (cstr s)) falsy then 0
  else -1.
Proof.
  unfold boolValue, myStrdup. rewrite dup_cstr, lower_loop_cstr.
  pose proof (no_nul_lower_cstr s) as Hw.
  set (w := lowercase (cstr s)) in *.
  unfold boolvalues, find_loop.
  rewrite !(strcmp_eqb w) by (assumption || reflexivity).
  try_word w "0". try_word w "1". try_word w "n". try_word w "y".
  try_word w "no". try_word w "yes". try_word w "off". try_word w "on".
  try_word w "false". try_word w "true". try_word w "disabled". try_word w "enabled".
  unfold member, truthy, falsy, existsb.
  rewrite E, E0, E1, E2, E3, E4, E5, E6, E7, E8, E9, E10. reflexivity.
Qed.

Lemma member_In (w : string) (l : list string) : member w l = true <-> In w l.
Proof.
  unfold member. rewrite existsb_exists. split.
  - intros (x & Hx & E). apply String.eqb_eq in E. now subst.
  - intros H. exists w. split; [assumption | apply String.eqb_refl].
Qed.

(** X5. [boolValue] of a null pointer is 1.  Of a string it is 1
    exactly when the string, read up to its terminator and folded to
    lower case, is one of [1 y yes on true enabled], 0 exactly when it
    is one of [0 n no off false disabled], and -1 in every other
    case; nothing is trimmed and no prefix is accepted. *)
Theorem boolValue_meaning (s : string) :
  boolValue None = 1 /\
  (boolValue (Some s) = 1 <-> In (lowercase (cstr s)) truthy) /\
  (boolValue (Some s) = 0 <-> In (lowercase (cstr s)) falsy) /\
  (boolValue (Some s) = -1 <->
   ~ In (lowercase (cstr s)) truthy /\ ~ In (lowercase (cstr s)) falsy).
Proof.
  split; [reflexivity |]. rewrite boolValue_lookup.
  rewrite <- !member_In.
  set (w := lowercase (cstr s)).
  assert (D : member w truthy = true -> member w falsy = true -> False).
  { unfold member, truthy, falsy, existsb. intros H1 H2.
    repeat (apply orb_true_iff in H1; destruct H1 as [H1 | H1]);
      try discriminate; apply String.eqb_eq in H1; rewrite H1 in H2; discriminate. }
  destruct (member w truthy) eqn:Et, (member w falsy) eqn:Ef;
    try (exfalso; now apply D); repeat split; try discriminate; try congruence;
    try tauto; intros []; congruence.
Qed.

Lemma cstr_lowercase (s : string) : cstr (lowercase s) = lowercase (cstr s).
Proof.
  induction s as [| c s IH]; [reflexivity |]. cbn [lowercase cstr]. rewrite tolower_nul.
  destruct (Ascii.eqb c NUL); [reflexivity |]. cbn [lowercase]. now rewrite IH.
Qed.

(** X6. [boolValue] does not tell upper case from lower case: two
    strings that differ only in the case of letters get the same
    value. *)
Theorem boolValue_case (s t : string) :
  lowercase s = lowercase t -> boolValue (Some s) = boolValue (Some t).
Proof.
  intros H. rewrite !boolValue_lookup, <- !cstr_lowercase. now rewrite H.
Qed.

Lemma boolValue_case_witness :
  lowercase "Enabled" = lowercase "eNABLEd" /\
  boolValue (Some "Enabled") = boolValue (Some "eNABLEd").
Proof. exact (conj eq_refl (boolValue_case "Enabled" "eNABLEd" eq_refl)). Defined.

End UtilFacts.

(** * Properties of the input, log and time helpers *)

Module IoFacts.
Import CStr CStrFacts Util UtilSpec Io IoSpec GrammarFacts.
Local Open Scope string_scope.
Local Open Scope Z_scope.

Lemma code_nonneg (c : ascii) : 0 <= code c.
Proof. unfold code. lia. Qed.

Lemma code_newline (c : ascii) : (code c =? code newline) = Ascii.eqb c newline.
Proof.
  destruct (Ascii.eqb_spec c newline) as [-> | N]; [apply Z.eqb_refl |].
  apply Z.eqb_neq. intros E. apply N. now apply code_inj.
Qed.

Lemma skipline_step (c : ascii) (t : string) :
  skipline (String c t) = if Ascii.eqb c newline then (10, t) else skipline t.
Proof.
  cbn [skipline getc]. change (code "010") with (code newline). rewrite code_newline.
  replace (code c =? EOF) with false
    by (symmetry; apply Z.eqb_neq; pose proof (code_nonneg c); unfold EOF; lia).
  cbn [negb andb]. destruct (Ascii.eqb_spec c newline) as [-> | N]; reflexivity.
Qed.

(** X11. [skipline] reads up to and including the first newline and
    returns the newline, leaving the stream at the start of the next
    line; on a stream with no newline left it reads everything and
    returns [EOF]. *)
Theorem skipline_line (line rest : string) :
  no_newline line = true ->
  skipline (line ++ String newline rest) = (10, rest) /\
  skipline line = (EOF, "").
Proof.
  induction line as [| c line IH]; intros H.
  - split; [cbn [append]; rewrite skipline_step; now rewrite Ascii.eqb_refl | reflexivity].
  - cbn [no_newline ProxySpec.all_chars] in H. apply andb_true_iff in H.
    destruct H as [Hc H]. apply negb_true_iff in Hc.
    change (String c line ++ String newline rest) with (String c (line ++ String newline rest)).
    rewrite !skipline_step, Hc. now apply IH.
Qed.

Lemma skipline_line_witness :
  no_newline "# a comment" = true /\
  skipline ("# a comment" ++ String newline "next") = (10, "next") /\
  skipline "# a comment" = (EOF, "").
Proof. exact (conj eq_refl (skipline_line "# a comment" "next" eq_refl)). Defined.

Lemma length_cstr (s : string) : String.length (cstr s) = strlen s.
Proof.
  induction s as [| c s IH]; [reflexivity |]. cbn [cstr strlen].
  destruct (Ascii.eqb c NUL); [reflexivity |]. cbn [String.length]. now rewrite IH.
Qed.

Lemma length_append (a b : string) :
  String.length (a ++ b) = (String.length a + String.length b)%nat.
Proof. induction a as [| c a IH]; [reflexivity |]. cbn [append String.length]. now rewrite IH. Qed.

Lemma sprintf_fits (size : nat) (args : list string) :
  size = (fold_right (fun s n => strlen s + n) 1 args)%nat ->
  sprintf size args = Some (fold_right append "" (map cstr args)).
Proof.
  intros ->. unfold sprintf.
  replace (String.length (fold_right append "" (map cstr args)) + 1)%nat
    with (fold_right (fun s n => strlen s + n) 1 args)%nat; [now rewrite Nat.leb_refl |].
  induction args as [| a args IH]; [reflexivity |].
  cbn [fold_right map]. rewrite length_append, length_cstr. lia.
Qed.

Lemma myStrdup2_value (s1 s2 : string) : myStrdup2 s1 s2 = Some (cstr s1 ++ cstr s2).
Proof.
  unfold myStrdup2. rewrite sprintf_fits by (cbn [fold_right]; lia).
  cbn [fold_right map]. now rewrite !append_empty.
Qed.

Lemma myStrdup3_value (s1 s2 s3 : string) :
  myStrdup3 s1 s2 s3 = Some (cstr s1 ++ cstr s2 ++ cstr s3).
Proof.
  unfold myStrdup3. rewrite sprintf_fits by (cbn [fold_right]; lia).
  cbn [fold_right map]. now rewrite !append_empty.
Qed.

Lemma myStrdup4_value (s1 s2 s3 s4 : string) :
  myStrdup4 s1 s2 s3 s4 = Some (cstr s1 ++ cstr s2 ++ cstr s3 ++ cstr s4).
Proof.
  unfold myStrdup4. rewrite sprintf_fits by (cbn [fold_right]; lia).
  cbn [fold_right map]. now rewrite !append_empty.
Qed.

(** X12. [myStrdup2], [myStrdup3] and [myStrdup4] return the
    concatenation of their arguments, and what [sprintf] writes,
    terminator included, is never more than the block allocated for
    it. *)
Theorem strdup_concat (s1 s2 s3 s4 : string) :
  myStrdup2 s1 s2 = Some (cstr s1 ++ cstr s2) /\
  myStrdup3 s1 s2 s3 = Some (cstr s1 ++ cstr s2 ++ cstr s3) /\
  myStrdup4 s1 s2 s3 s4 = Some (cstr s1 ++ cstr s2 ++ cstr s3 ++ cstr s4).
Proof.
  split; [apply myStrdup2_value | split; [apply myStrdup3_value | apply myStrdup4_value]].
Qed.

Lemma append_assoc (a b c : string) : (a ++ b) ++ c = a ++ b ++ c.
Proof. induction a as [| x a IH]; cbn [append]; [reflexivity | now rewrite IH]. Qed.

Lemma cstr_idem (s : string) : cstr (cstr s) = cstr s.
Proof.
  induction s as [| c s IH]; [reflexivity |]. cbn [cstr].
  destruct (Ascii.eqb c NUL) eqn:E; [reflexivity |]. cbn [cstr]. now rewrite E, IH.
Qed.

Lemma cstr_append (a b : string) : cstr (cstr a ++ b) = cstr a ++ cstr b.
Proof.
  induction a as [| c a IH]; [reflexivity |]. cbn [cstr].
  destruct (Ascii.eqb c NUL) eqn:E; [reflexivity |]. cbn [append cstr]. now rewrite E, IH.
Qed.

Lemma logfilename_value (progname : string) (aip logdir : option string) :
  logfilename progname aip logdir = Some (log_name progname aip logdir).
Proof.
  unfold logfilename, log_name.
  destruct aip as [auction |].
  - rewrite myStrdup4_value. change (cstr ".") with ".". change (cstr ".log") with ".log".
    destruct logdir as [dir |]; [| reflexivity].
    rewrite myStrdup3_value. change (cstr "/") with "/".
    rewrite cstr_append. change ("." ++ cstr auction ++ ".log")
      with (String "." (cstr auction ++ ".log")).
    cbn [cstr Ascii.eqb Bool.eqb]. rewrite cstr_append. change (cstr ".log") with ".log".
    cbn [append]. now rewrite ?append_assoc.
  - rewrite myStrdup2_value. change (cstr ".log") with ".log".
    destruct logdir as [dir |]; [| reflexivity].
    rewrite myStrdup3_value. change (cstr "/") with "/".
    rewrite cstr_append. change (cstr ".log") with ".log".
    cbn [append]. now rewrite ?append_assoc.
Qed.

(** X13. [logOpen] gives the log the name
    [logdir/progname.auction.log], without the directory when [logdir]
    is null and without the auction when [aip] is null.  Whatever log
    was open is closed first; if the new file cannot be opened, no log
    is open afterwards and one line naming the file goes to [stderr],
    and otherwise nothing goes to [stderr]. *)
Theorem logOpen_effect (writable : string -> bool) (open_error : string -> string)
    (progname : string) (aip logdir : option string) (s : log_state) :
  let name := log_name progname aip logdir in
  exists s',
    logOpen writable open_error progname aip logdir s = Some s' /\
    logfile s' = (if writable name then Some name else None) /\
    closed s' = match logfile s with Some f => f :: closed s | None => closed s end /\
    stderr_out s' =
      (if writable name then stderr_out s
       else ("Unable to open log file " ++ name ++ ": " ++ open_error name
             ++ String "010" "") :: stderr_out s).
Proof.
  intros name. unfold logOpen. rewrite logfilename_value. fold name.
  eexists. split; [reflexivity |].
  unfold logClose. destruct (writable name), (logfile s); now repeat split.
Qed.

(** X14. As long as the buffer agrees with the time recorded for it,
    [timestamp] at a time other than 0 returns the text for that
    time, and leaves the buffer in agreement with the time recorded. *)
Theorem timestamp_current (strftime_c : Z -> string) (now : Z) (s : stamp_state) :
  cache_ok strftime_c s -> now <> 0 ->
  fst (timestamp strftime_c now s) = strftime_c now /\
  cache_ok strftime_c (snd (timestamp strftime_c now s)).
Proof.
  unfold cache_ok, timestamp. intros C Hn.
  destruct (Z.eqb_spec now (saveTime s)) as [E | E]; cbn [negb fst snd buf saveTime].
  - split; [| assumption]. rewrite E in *. now apply C.
  - now split.
Qed.

Lemma timestamp_current_witness :
  cache_ok sample_clock stamp_initial /\ 1 <> 0 /\
  fst (timestamp sample_clock 1 stamp_initial) = sample_clock 1 /\
  cache_ok sample_clock (snd (timestamp sample_clock 1 stamp_initial)).
Proof.
  assert (C : cache_ok sample_clock stamp_initial) by (intros H; now elim H).
  assert (N : 1 <> 0) by discriminate.
  exact (conj C (conj N (timestamp_current sample_clock 1 stamp_initial C N))).
Defined.

End IoFacts.

(** * Properties of [basename] and [dirname] *)

Module PathFacts.
Import CStr Path PathSpec.
Local Open Scope string_scope.
Local Open Scope list_scope.

Lemma at_index_app (l r : chars) (c : ascii) : at_index (l ++ c :: r) (List.length l) = c.
Proof. unfold at_index. apply nth_middle. Qed.

Lemma put_app (l r : chars) (c v : ascii) : put (l ++ c :: r) (List.length l) v = l ++ v :: r.
Proof.
  unfold put. rewrite firstn_app, firstn_all, Nat.sub_diag. cbn [firstn]. rewrite app_nil_r.
  replace (S (List.length l)) with (List.length (l ++ [c]))
    by (rewrite length_app; cbn [List.length]; lia).
  replace (l ++ c :: r) with ((l ++ [c]) ++ r) by now rewrite <- app_assoc.
  now rewrite skipn_app, skipn_all, Nat.sub_diag.
Qed.

Lemma sep_not_nul (c : ascii) : is_sep c = true -> Ascii.eqb c NUL = false.
Proof.
  unfold is_sep. intros H. apply orb_true_iff in H.
  destruct H as [H | H]; apply Ascii.eqb_eq in H; now subst.
Qed.

Lemma all_sep_no_nul (l : chars) : all_sep l = true -> no_nul l = true.
Proof.
  unfold all_sep, no_nul. rewrite !forallb_forall. intros H c Hc.
  now rewrite (sep_not_nul c (H c Hc)).
Qed.

Lemma strlen_app_no_nul (l r : chars) :
  no_nul l = true -> strlen (l ++ r) = (List.length l + strlen r)%nat.
Proof.
  induction l as [| c l IH]; [reflexivity |]. cbn [no_nul forallb app strlen List.length].
  intros H. apply andb_true_iff in H. destruct H as [Hc Hl]. apply negb_true_iff in Hc.
  rewrite Hc. fold (no_nul l) in Hl. now rewrite (IH Hl).
Qed.

Lemma cstr_app_no_nul (l r : chars) : no_nul l = true -> cstr (l ++ r) = l ++ cstr r.
Proof.
  induction l as [| c l IH]; [reflexivity |]. cbn [no_nul forallb app cstr].
  intros H. apply andb_true_iff in H. destruct H as [Hc Hl]. apply negb_true_iff in Hc.
  rewrite Hc. fold (no_nul l) in Hl. now rewrite (IH Hl).
Qed.

Lemma cstr_nuls (n : nat) (r : chars) : cstr (repeat NUL (S n) ++ r) = [].
Proof. reflexivity. Qed.

Lemma repeat_snoc (n : nat) (r : chars) :
  repeat NUL n ++ NUL :: r = repeat NUL (S n) ++ r.
Proof. induction n as [| n IH]; [reflexivity |]. cbn [repeat app]. now rewrite IH. Qed.

(** The first loop, on a string with its trailing separators set apart. *)
Lemma strip_seps (seps : chars) :
  forall (l junk : chars),
    all_sep seps = true -> ends_sep l = false \/ l = [] ->
    strip_loop (List.length (l ++ seps)) (l ++ seps ++ junk) =
    (l ++ repeat NUL (List.length seps) ++ junk, List.length l).
Proof.
  induction seps as [| x seps IH] using rev_ind; intros l junk Hs Hl.
  - rewrite app_nil_r. cbn [app List.length repeat].
    destruct Hl as [Hl | ->]; [| reflexivity].
    destruct l as [| c l] using rev_ind; [discriminate Hl |]. clear IHl.
    unfold ends_sep in Hl. rewrite last_last in Hl.
    rewrite length_app. cbn [List.length]. rewrite Nat.add_1_r. cbn [strip_loop].
    rewrite <- app_assoc. cbn [app]. now rewrite at_index_app, Hl.
  - unfold all_sep in Hs. rewrite forallb_app in Hs. apply andb_true_iff in Hs.
    destruct Hs as [Hs Hx]. cbn [forallb] in Hx. rewrite andb_true_r in Hx.
    rewrite app_assoc, length_app. cbn [List.length]. rewrite Nat.add_1_r.
    cbn [strip_loop]. rewrite <- !app_assoc. cbn [app].
    rewrite (app_assoc l seps). rewrite at_index_app, Hx, put_app.
    rewrite <- app_assoc. rewrite (IH l (NUL :: junk) Hs Hl).
    rewrite length_app. cbn [List.length]. rewrite Nat.add_1_r. now rewrite repeat_snoc.
Qed.

(** The second loop, on a string whose last component is set apart. *)
Lemma scan_base (base : chars) :
  forall (pre junk : chars),
    no_sep base = true -> ends_sep pre = true ->
    scan_loop (List.length (pre ++ base)) (pre ++ base ++ junk) = List.length pre.
Proof.
  induction base as [| x base IH] using rev_ind; intros pre junk Hb Hp.
  - rewrite app_nil_r. cbn [app].
    destruct pre as [| c pre] using rev_ind; [reflexivity |]. clear IHpre.
    unfold ends_sep in Hp. rewrite last_last in Hp.
    rewrite length_app. cbn [List.length]. rewrite Nat.add_1_r. cbn [scan_loop].
    rewrite <- app_assoc. cbn [app]. rewrite at_index_app, Hp. cbn [negb].
    rewrite ?length_app. cbn [List.length]. lia.
  - unfold no_sep in Hb. rewrite forallb_app in Hb. apply andb_true_iff in Hb.
    destruct Hb as [Hb Hx]. cbn [forallb] in Hx. rewrite andb_true_r in Hx.
    rewrite app_assoc, length_app. cbn [List.length]. rewrite Nat.add_1_r.
    cbn [scan_loop]. rewrite <- !app_assoc. cbn [app].
    rewrite (app_assoc pre base). rewrite at_index_app, Hx.
    rewrite <- app_assoc. now apply IH.
Qed.

Lemma at_last (l : chars) (x : ascii) :
  at_index (l ++ [x]) (List.length (l ++ [x]) - 1) = x.
Proof.
  rewrite length_app. cbn [List.length].
  replace (List.length l + 1 - 1)%nat with (List.length l) by lia. apply at_index_app.
Qed.

Lemma strlen_no_nul (l : chars) : no_nul l = true -> strlen l = List.length l.
Proof.
  intros H. rewrite <- (app_nil_r l) at 1. rewrite (strlen_app_no_nul l [] H). cbn [strlen]. lia.
Qed.

Lemma cstr_no_nul (l : chars) : no_nul l = true -> cstr l = l.
Proof.
  intros H. rewrite <- (app_nil_r l) at 1. rewrite (cstr_app_no_nul l [] H). apply app_nil_r.
Qed.

Lemma cstr_pad (l : chars) (n : nat) :
  no_nul l = true -> cstr (l ++ repeat NUL n ++ []) = l.
Proof.
  intros H. rewrite (cstr_app_no_nul l _ H).
  destruct n as [| n]; [apply app_nil_r |]. rewrite cstr_nuls. apply app_nil_r.
Qed.

Lemma no_nul_app (a b : chars) : no_nul (a ++ b) = no_nul a && no_nul b.
Proof. apply forallb_app. Qed.

Lemma no_sep_last (base : chars) :
  base <> [] -> no_sep base = true -> is_sep (last base "/"%char) = false.
Proof.
  destruct base as [| x base] using rev_ind; [congruence |]. intros _ H.
  unfold no_sep in H. rewrite forallb_app in H. apply andb_true_iff in H.
  destruct H as [_ H]. cbn [forallb] in H. rewrite andb_true_r in H.
  rewrite last_last. now apply negb_true_iff.
Qed.

Lemma ends_sep_app (pre base : chars) :
  base <> [] -> ends_sep (pre ++ base) = is_sep (last base "/"%char).
Proof.
  destruct base as [| x base] using rev_ind; [congruence |]. intros _.
  unfold ends_sep. now rewrite app_assoc, !last_last.
Qed.

Lemma all_sep_last (seps : chars) :
  all_sep seps = true -> is_sep (last seps "/"%char) = true.
Proof.
  destruct seps as [| x seps] using rev_ind; [reflexivity |]. intros H.
  unfold all_sep in H. rewrite forallb_app in H. apply andb_true_iff in H.
  destruct H as [_ H]. cbn [forallb] in H. rewrite andb_true_r in H. now rewrite last_last.
Qed.

Lemma at_end_last (l : chars) :
  l <> [] -> at_index l (List.length l - 1) = last l "/"%char.
Proof.
  destruct l as [| x l] using rev_ind; [congruence |]. intros _.
  now rewrite at_last, last_last.
Qed.

(** The two loops of both functions on [pre ++ base ++ seps]: the
    index left by the first, or the length when it is not entered, and
    the buffer. *)
Lemma strip_phase (pre base seps : chars) :
  base <> [] -> no_sep base = true -> all_sep seps = true ->
  let name := pre ++ base ++ seps in
  (seps = [] /\ is_sep (at_index name (List.length name - 1)) = false) \/
  (seps <> [] /\ is_sep (at_index name (List.length name - 1)) = true /\
   strip_loop (List.length name) name =
   (pre ++ base ++ repeat NUL (List.length seps) ++ [], List.length (pre ++ base))).
Proof.
  intros Hne Hb Hs name. subst name.
  destruct seps as [| s seps].
  - left. split; [reflexivity |]. rewrite app_nil_r.
    rewrite at_end_last by (destruct pre, base; cbn; congruence).
    change (is_sep (last (pre ++ base) "/"%char)) with (ends_sep (pre ++ base)).
    rewrite ends_sep_app by assumption. now apply no_sep_last.
  - right. split; [discriminate |].
    assert (Hl : ends_sep (pre ++ base) = false)
      by (rewrite ends_sep_app by assumption; now apply no_sep_last).
    split.
    + replace (pre ++ base ++ s :: seps) with ((pre ++ base) ++ s :: seps)
        by now rewrite <- app_assoc.
      rewrite at_end_last by (destruct (pre ++ base); cbn; congruence).
      change (is_sep (last ((pre ++ base) ++ s :: seps) "/"%char))
        with (ends_sep ((pre ++ base) ++ s :: seps)).
      rewrite ends_sep_app by discriminate. now apply all_sep_last.
    + pose proof (strip_seps (s :: seps) (pre ++ base) [] Hs (or_introl Hl)) as E.
      assert (X1 : (pre ++ base) ++ (s :: seps) ++ [] = pre ++ base ++ s :: seps)
        by now rewrite app_nil_r, <- app_assoc.
      assert (X2 : (pre ++ base) ++ s :: seps = pre ++ base ++ s :: seps)
        by now rewrite <- app_assoc.
      rewrite X1, X2 in E. rewrite E. now rewrite <- app_assoc.
Qed.

(** The two loops of [basename] on [pre ++ base ++ seps]. *)
Lemma basename_run (pre base seps : chars) :
  no_nul pre = true -> ends_sep pre = true ->
  base <> [] -> no_sep base = true -> no_nul base = true ->
  all_sep seps = true ->
  basename (Some (pre ++ base ++ seps)) =
  (Name (List.length pre), Some (pre ++ base ++ repeat NUL (List.length seps) ++ [])).
Proof.
  intros Hp He Hne Hb Hbn Hs.
  assert (Hn : no_nul (pre ++ base ++ seps) = true)
    by (rewrite !no_nul_app, Hp, Hbn; now rewrite all_sep_no_nul).
  unfold basename. rewrite (strlen_no_nul _ Hn).
  assert (Hlen : Nat.eqb (List.length (pre ++ base ++ seps)) 0 = false).
  { apply Nat.eqb_neq. rewrite !length_app. destruct base; [congruence | cbn; lia]. }
  rewrite Hlen.
  destruct (strip_phase pre base seps Hne Hb Hs) as [[-> E] | (Hsn & E & S)];
    cbv zeta in *; rewrite E.
  - replace (List.length (pre ++ base ++ [])) with (List.length (pre ++ base))
      by now rewrite app_nil_r.
    now rewrite (scan_base base pre [] Hb He).
  - rewrite S.
    assert (Hz : Nat.eqb (List.length (pre ++ base)) 0 = false).
    { apply Nat.eqb_neq. rewrite length_app. destruct base; [congruence | cbn; lia]. }
    rewrite Hz. now rewrite (scan_base base pre _ Hb He).
Qed.

(** The string at [name + length pre] once the separators are cut. *)
Lemma pointee_base (pre base : chars) (n : nat) :
  no_nul base = true ->
  pointee (Name (List.length pre), Some (pre ++ base ++ repeat NUL n ++ []))
  = Some (string_of_list_ascii base).
Proof.
  intros Hbn. unfold pointee.
  rewrite skipn_app, skipn_all, Nat.sub_diag. cbn [skipn app].
  now rewrite (cstr_pad base _ Hbn).
Qed.

Lemma strip_all (seps : chars) :
  seps <> [] -> all_sep seps = true ->
  is_sep (at_index seps (List.length seps - 1)) = true /\
  strip_loop (List.length seps) seps = (repeat NUL (List.length seps), O).
Proof.
  intros Hne Hs. split.
  - rewrite at_end_last by assumption. now apply all_sep_last.
  - pose proof (strip_seps seps [] [] Hs (or_intror eq_refl)) as E.
    cbn [app List.length] in E. now rewrite !app_nil_r in E.
Qed.

Lemma basename_seps (seps : chars) :
  seps <> [] -> all_sep seps = true ->
  basename (Some seps) = (Literal "/", Some (repeat NUL (List.length seps))).
Proof.
  intros Hne Hs. destruct (strip_all seps Hne Hs) as [E S].
  unfold basename. rewrite (strlen_no_nul _ (all_sep_no_nul _ Hs)).
  destruct seps as [| s seps]; [congruence |].
  change (Nat.eqb (List.length (s :: seps)) 0) with false. cbv iota.
  cbv zeta. rewrite E, S. reflexivity.
Qed.

Lemma dirname_seps (seps : chars) :
  seps <> [] -> all_sep seps = true ->
  dirname (Some seps) = (Literal "/", Some (repeat NUL (List.length seps))).
Proof.
  intros Hne Hs. destruct (strip_all seps Hne Hs) as [E S].
  unfold dirname. rewrite (strlen_no_nul _ (all_sep_no_nul _ Hs)).
  destruct seps as [| s seps]; [congruence |].
  change (Nat.eqb (List.length (s :: seps)) 0) with false. cbv iota.
  cbv zeta. rewrite E, S. reflexivity.
Qed.

(** Every string is a prefix that is empty or ends with a separator, a
    run without separators, and a run of separators. *)
Lemma split_path (l : chars) :
  exists pre base seps,
    l = pre ++ base ++ seps /\ all_sep seps = true /\ no_sep base = true /\
    ends_sep pre = true /\ (base = [] -> pre = []).
Proof.
  induction l as [| x l (pre & base & seps & E & Hs & Hb & Hp & Hz)] using rev_ind.
  - now exists [], [], [].
  - destruct (is_sep x) eqn:Hx.
    + exists pre, base, (seps ++ [x]). subst l. rewrite <- !app_assoc.
      repeat split; try assumption.
      unfold all_sep. rewrite forallb_app. fold (all_sep seps). rewrite Hs. cbn. now rewrite Hx.
    + destruct seps as [| s seps].
      * exists pre, (base ++ [x]), []. subst l. rewrite !app_nil_r, <- app_assoc.
        repeat split; try assumption.
        -- unfold no_sep. rewrite forallb_app. fold (no_sep base). rewrite Hb. cbn. now rewrite Hx.
        -- intros H. now destruct base.
      * exists (pre ++ base ++ s :: seps), [x], []. subst l.
        split; [now rewrite app_nil_r |]. split; [reflexivity |].
        split; [cbn; now rewrite Hx |]. split; [| discriminate].
        rewrite app_assoc. rewrite ends_sep_app by discriminate. now apply all_sep_last.
Qed.

(** X16. What [basename] returns for a name is ["."], ["/"], or a
    string that is not empty and holds no separator. *)
Theorem basename_shape (name : chars) (r : string) :
  no_nul name = true -> pointee (basename (Some name)) = Some r ->
  r = "." \/ r = "/" \/
  (r <> "" /\ no_sep (list_ascii_of_string r) = true).
Proof.
  intros Hn H.
  destruct (split_path name) as (pre & base & seps & -> & Hs & Hb & Hp & Hz).
  rewrite !no_nul_app in Hn. apply andb_true_iff in Hn. destruct Hn as [Hpn Hn].
  apply andb_true_iff in Hn. destruct Hn as [Hbn Hsn].
  destruct base as [| b base].
  - rewrite (Hz eq_refl) in H. cbn [app] in H.
    destruct seps as [| s seps]; [left; now injection H |].
    rewrite basename_seps in H by (assumption || discriminate). right; left. now injection H.
  - assert (E : pointee (basename (Some (pre ++ (b :: base) ++ seps)))
                = Some (string_of_list_ascii (b :: base))).
    { rewrite (basename_run pre (b :: base) seps Hpn Hp ltac:(discriminate) Hb Hbn Hs).
      now apply pointee_base. }
    pose proof (eq_trans (eq_sym E) H) as X.
    assert (R : r = string_of_list_ascii (b :: base)) by congruence.
    rewrite R. right; right.
    rewrite list_ascii_of_string_of_list_ascii. split; [discriminate | assumption].
Qed.

(** X15. For a name made of a prefix that is empty or ends with a
    separator, a last component, and any number of trailing
    separators, [basename] returns the last component, and leaves in
    [name] the name without its trailing separators. *)
Theorem basename_component (pre base seps : chars) :
  no_nul pre = true -> ends_sep pre = true ->
  base <> [] -> no_sep base = true -> no_nul base = true ->
  all_sep seps = true ->
  pointee (basename (Some (pre ++ base ++ seps))) = Some (string_of_list_ascii base) /\
  name_after (basename (Some (pre ++ base ++ seps)))
    = Some (string_of_list_ascii (pre ++ base)).
Proof.
  intros Hp He Hne Hb Hbn Hs.
  assert (Hpb : no_nul (pre ++ base) = true) by now rewrite no_nul_app, Hp, Hbn.
  rewrite (basename_run pre base seps Hp He Hne Hb Hbn Hs).
  split; [now apply pointee_base |].
  unfold name_after. cbn [snd option_map].
  rewrite app_assoc. now rewrite (cstr_pad (pre ++ base) _ Hpb).
Qed.

Lemma dirname_tail_run (pre base junk : chars) :
  no_sep base = true -> ends_sep pre = true ->
  dirname_tail (List.length (pre ++ base)) (pre ++ base ++ junk) =
  if Nat.eqb (List.length pre) 0 then (Literal ".", Some (pre ++ base ++ junk))
  else if Nat.eqb (List.length pre) 1 then (Literal "/", Some (pre ++ base ++ junk))
  else (Name 0, Some (put (pre ++ base ++ junk) (List.length pre - 1) NUL)).
Proof. intros Hb Hp. unfold dirname_tail. now rewrite (scan_base base pre junk Hb Hp). Qed.

(** The two loops of [dirname] on [pre ++ base ++ seps]. *)
Lemma dirname_path (pre base seps : chars) :
  no_nul pre = true -> ends_sep pre = true ->
  base <> [] -> no_sep base = true -> no_nul base = true ->
  all_sep seps = true ->
  exists junk,
    dirname (Some (pre ++ base ++ seps)) =
    if negb (Nat.eqb (List.length seps) 0) && Nat.leb (List.length (pre ++ base)) 1
    then (Literal "/", Some (pre ++ base ++ junk))
    else if Nat.eqb (List.length pre) 0 then (Literal ".", Some (pre ++ base ++ junk))
    else if Nat.eqb (List.length pre) 1 then (Literal "/", Some (pre ++ base ++ junk))
    else (Name 0, Some (put (pre ++ base ++ junk) (List.length pre - 1) NUL)).
Proof.
  intros Hp He Hne Hb Hbn Hs.
  assert (Hn : no_nul (pre ++ base ++ seps) = true)
    by (rewrite !no_nul_app, Hp, Hbn; now rewrite all_sep_no_nul).
  unfold dirname. rewrite (strlen_no_nul _ Hn).
  assert (Hlen : Nat.eqb (List.length (pre ++ base ++ seps)) 0 = false).
  { apply Nat.eqb_neq. rewrite !length_app. destruct base; [congruence | cbn; lia]. }
  rewrite Hlen.
  destruct (strip_phase pre base seps Hne Hb Hs) as [[-> E] | (Hsn & E & S)];
    cbv zeta in *; rewrite E.
  - exists []. cbn [List.length Nat.eqb negb andb].
    replace (List.length (pre ++ base ++ [])) with (List.length (pre ++ base))
      by now rewrite app_nil_r.
    now apply dirname_tail_run.
  - exists (repeat NUL (List.length seps) ++ []). rewrite S.
    replace (Nat.eqb (List.length seps) 0) with false
      by (symmetry; apply Nat.eqb_neq; destruct seps; [congruence | discriminate]).
    cbn [negb andb].
    destruct (Nat.leb (List.length (pre ++ base)) 1); [reflexivity |].
    now apply dirname_tail_run.
Qed.

(** X17. For a name made of a directory part, a separator, a last
    component and any number of trailing separators, [dirname] returns
    the directory part as it stands, or ["/"] when it is empty. *)
Theorem dirname_parent (dir : chars) (s : ascii) (base seps : chars) :
  no_nul dir = true -> is_sep s = true ->
  base <> [] -> no_sep base = true -> no_nul base = true ->
  all_sep seps = true ->
  pointee (dirname (Some (dir ++ [s] ++ base ++ seps))) =
  Some (match dir with
        | [] => "/"
        | _ => string_of_list_ascii dir
        end).
Proof.
  intros Hd Hsep Hne Hb Hbn Hs.
  assert (Hp : no_nul (dir ++ [s]) = true).
  { rewrite no_nul_app, Hd. cbn. now rewrite (sep_not_nul s Hsep). }
  assert (He : ends_sep (dir ++ [s]) = true) by (unfold ends_sep; now rewrite last_last).
  destruct (dirname_path (dir ++ [s]) base seps Hp He Hne Hb Hbn Hs) as (junk & E).
  rewrite <- app_assoc in E. rewrite E.
  assert (L2 : Nat.leb (List.length ((dir ++ [s]) ++ base)) 1 = false).
  { apply Nat.leb_gt. rewrite !length_app. destruct base; [congruence | cbn; lia]. }
  rewrite L2, andb_false_r.
  rewrite length_app. cbn [List.length].
  destruct dir as [| d dir]; [reflexivity |].
  cbn [List.length Nat.add Nat.eqb].
  replace (Nat.eqb (List.length dir + 1) 0) with false
    by (symmetry; apply Nat.eqb_neq; lia).
  replace (S (List.length dir + 1) - 1)%nat with (List.length (d :: dir))
    by (cbn [List.length]; lia).
  rewrite <- (app_assoc (d :: dir) [s]). cbn [app].
  change (d :: dir ++ s :: base ++ junk) with ((d :: dir) ++ s :: base ++ junk).
  rewrite put_app. unfold pointee. cbn [skipn].
  rewrite (cstr_app_no_nul (d :: dir) _ Hd). cbn [cstr Ascii.eqb Bool.eqb].
  now rewrite app_nil_r.
Qed.

(** X18. For a name with no separator but trailing ones, [dirname]
    returns ["."], except that a name of one character followed by
    separators gives ["/"]: after the trailing separators are cut the
    code tests [cp <= name]. *)
Theorem dirname_bare (base seps : chars) :
  base <> [] -> no_sep base = true -> no_nul base = true -> all_sep seps = true ->
  pointee (dirname (Some (base ++ seps))) =
  Some (if Nat.eqb (List.length base) 1 && negb (Nat.eqb (List.length seps) 0)
        then "/" else ".").
Proof.
  intros Hne Hb Hbn Hs.
  destruct (dirname_path [] base seps eq_refl eq_refl Hne Hb Hbn Hs) as (junk & E).
  cbn [app List.length Nat.eqb] in E. rewrite E.
  destruct base as [| b [| b' base]]; [congruence | |]; cbn [List.length Nat.leb Nat.eqb];
    destruct (Nat.eqb (List.length seps) 0); reflexivity.
Qed.

(** X19. For a name made of separators only, [basename] and
    [dirname] both return ["/"], and leave [name] empty. *)
Theorem only_separators (seps : chars) :
  seps <> [] -> all_sep seps = true ->
  pointee (basename (Some seps)) = Some "/" /\
  pointee (dirname (Some seps)) = Some "/" /\
  name_after (basename (Some seps)) = Some "" /\
  name_after (dirname (Some seps)) = Some "".
Proof.
  intros Hne Hs. rewrite (basename_seps seps Hne Hs), (dirname_seps seps Hne Hs).
  unfold pointee, name_after. cbn [snd option_map].
  destruct seps as [| s seps]; [congruence |]. now repeat split.
Qed.

Lemma basename_component_witness :
  no_nul (chars_of "C:\dir\") = true /\ ends_sep (chars_of "C:\dir\") = true /\
  chars_of "file.txt" <> [] /\ no_sep (chars_of "file.txt") = true /\
  no_nul (chars_of "file.txt") = true /\ all_sep (chars_of "//") = true /\
  pointee (basename (path "C:\dir\file.txt//")) = Some "file.txt" /\
  name_after (basename (path "C:\dir\file.txt//")) = Some "C:\dir\file.txt".
Proof.
  assert (N : chars_of "file.txt" <> []) by discriminate.
  exact (conj eq_refl (conj eq_refl (conj N (conj eq_refl (conj eq_refl (conj eq_refl
           (basename_component (chars_of "C:\dir\") (chars_of "file.txt") (chars_of "//")
              eq_refl eq_refl N eq_refl eq_refl eq_refl))))))).
Defined.

Lemma basename_shape_witness :
  no_nul (chars_of "/usr/lib/") = true /\
  pointee (basename (path "/usr/lib/")) = Some "lib" /\
  ("lib" = "." \/ "lib" = "/" \/
   ("lib" <> "" /\ no_sep (list_ascii_of_string "lib") = true)).
Proof.
  exact (conj eq_refl (conj eq_refl
           (basename_shape (chars_of "/usr/lib/") "lib" eq_refl eq_refl))).
Defined.

Lemma dirname_parent_witness :
  no_nul (chars_of "/usr") = true /\ is_sep "/" = true /\
  chars_of "lib" <> [] /\ no_sep (chars_of "lib") = true /\
  no_nul (chars_of "lib") = true /\ all_sep (chars_of "/") = true /\
  pointee (dirname (path "/usr/lib/")) = Some "/usr".
Proof.
  assert (N : chars_of "lib" <> []) by discriminate.
  exact (conj eq_refl (conj eq_refl (conj N (conj eq_refl (conj eq_refl (conj eq_refl
           (dirname_parent (chars_of "/usr") "/" (chars_of "lib") (chars_of "/")
              eq_refl eq_refl N eq_refl eq_refl eq_refl))))))).
Defined.

Lemma dirname_bare_witness :
  chars_of "a" <> [] /\ no_sep (chars_of "a") = true /\
  no_nul (chars_of "a") = true /\ all_sep (chars_of "/") = true /\
  pointee (dirname (path "a/")) = Some "/" /\
  pointee (dirname (path "a")) = Some ".".
Proof.
  assert (N : chars_of "a" <> []) by discriminate.
  exact (conj N (conj eq_refl (conj eq_refl (conj eq_refl (conj
           (dirname_bare (chars_of "a") (chars_of "/") N eq_refl eq_refl eq_refl)
           (dirname_bare (chars_of "a") [] N eq_refl eq_refl eq_refl)))))).
Defined.

Lemma only_separators_witness :
  chars_of "//\" <> [] /\ all_sep (chars_of "//\") = true /\
  pointee (basename (path "//\")) = Some "/" /\
  pointee (dirname (path "//\")) = Some "/" /\
  name_after (basename (path "//\")) = Some "" /\
  name_after (dirname (path "//\")) = Some "".
Proof.
  assert (N : chars_of "//\" <> []) by discriminate.
  exact (conj N (conj eq_refl (only_separators (chars_of "//\") N eq_refl))).
Defined.

End PathFacts.

(** * Sequences of operations on the password *)

Module ToggleFacts.
Import Guard GuardSpec GuardFacts ToggleSpec.
Local Open Scope Z_scope.

Ltac conjs := repeat match goal with |- _ /\ _ => split end.

Section Toggles.
Variable random_seq : Z -> nat -> Z.
Variables getpid time0 : Z.

Lemma encrypt_keeps_pad (s : state) (p : buffer) :
  consistent s -> passwordPad s = Some p ->
  exists s', encryptPassword random_seq getpid time0 s = Some (tt, s') /\
             consistent s' /\ plaintext s' = plaintext s /\
             passwordPad s' = Some p /\ passwordLen s' = passwordLen s /\
             (needSeed s = 0 -> needSeed s' = 0 /\ rand_seed s' = rand_seed s /\
                                rand_count s' = rand_count s).
Proof.
  intros C Hp. pose proof C as [C1 C2 C3 C4 C5].
  destruct (seeded_fields getpid time0 s) as (Fb & Fe & Fp & Fl & Fr).
  destruct (Z.eq_dec (encrypted s) 0) as [He | He];
    [| exists s; split; [apply encrypt_noop; now left | conjs; auto]].
  destruct (password s) as [b |] eqn:Hb;
    [| exists s; split; [apply encrypt_noop; now right | conjs; auto]].
  pose proof (C2 p Hp) as Hlen. pose proof (C4 b eq_refl) as Hlb.
  eexists. split; [apply (encrypt_with_pad random_seq getpid time0 s b p He Hb Hp); lia |].
  assert (T : consistent (set_encrypted 1 (set_password (Some (xor_prefix (passwordLen s) b p))
                            (seeded getpid time0 s))) /\
              plaintext (set_encrypted 1 (set_password (Some (xor_prefix (passwordLen s) b p))
                            (seeded getpid time0 s))) = plaintext s).
  { apply (consistent_toggle s _ b p C Hb Hp); cbn; rewrite ?Fp, ?Fl, ?Hp; try reflexivity.
    split; [intros _; discriminate | intros _; assumption]. }
  destruct T as [T1 T2]. split; [assumption |]. split; [assumption |].
  cbn. rewrite Fp, Fl. conjs; auto;
    intros Hs; rewrite (seeded_idle getpid time0 s) by assumption; auto.
Qed.

Lemma decrypt_keeps_pad (s : state) (p : buffer) :
  consistent s -> passwordPad s = Some p ->
  exists s', decryptPassword s = Some (tt, s') /\
             consistent s' /\ plaintext s' = plaintext s /\
             passwordPad s' = Some p /\ passwordLen s' = passwordLen s /\
             needSeed s' = needSeed s /\ rand_seed s' = rand_seed s /\
             rand_count s' = rand_count s.
Proof.
  intros C Hp. pose proof C as [C1 C2 C3 C4 C5].
  destruct (Z.eq_dec (encrypted s) 0) as [He | He];
    [exists s; split; [apply decrypt_noop; now left | conjs; auto] |].
  destruct (password s) as [b |] eqn:Hb;
    [| exists s; split; [apply decrypt_noop; right; now left | conjs; auto]].
  pose proof (C2 p Hp) as Hlen. pose proof (C4 b eq_refl) as Hlb.
  eexists. split; [apply (decrypt_with_pad s b p He Hb Hp); lia |].
  assert (T : consistent (set_encrypted 0 (set_password (Some (xor_prefix (passwordLen s) b p)) s))
              /\ plaintext (set_encrypted 0 (set_password
                              (Some (xor_prefix (passwordLen s) b p)) s)) = plaintext s).
  { apply (consistent_toggle s _ b p C Hb Hp); cbn; rewrite ?Hp; try reflexivity.
    split; [intros E; contradiction | intros E; now elim E]. }
  destruct T as [T1 T2]. conjs; auto.
Qed.

(** X7. Once a pad is stored, any sequence of calls of
    [encryptPassword] and [decryptPassword] completes, and leaves the
    same pad, the same stored length and the same password behind the
    buffer: the pad made at the first obfuscation serves every later
    one. *)
Theorem pad_kept_across_toggles (ts : list toggle) (s : state) (p : buffer) :
  consistent s -> passwordPad s = Some p ->
  exists s', run_toggles random_seq getpid time0 ts s = Some s' /\
             passwordPad s' = Some p /\ passwordLen s' = passwordLen s /\
             plaintext s' = plaintext s /\ consistent s'.
Proof.
  revert s. induction ts as [| t ts IH]; intros s C Hp.
  - exists s. conjs; auto.
  - assert (St : exists s1, run_toggle random_seq getpid time0 t s = Some s1 /\ consistent s1 /\
                   plaintext s1 = plaintext s /\ passwordPad s1 = Some p /\
                   passwordLen s1 = passwordLen s).
    { destruct t; unfold run_toggle, run.
      - destruct (encrypt_keeps_pad s p C Hp) as (s1 & E & C1 & P1 & Q1 & L1 & _).
        exists s1. rewrite E. conjs; auto.
      - destruct (decrypt_keeps_pad s p C Hp) as (s1 & E & C1 & P1 & Q1 & L1 & _).
        exists s1. rewrite E. conjs; auto. }
    destruct St as (s1 & E & C1 & P1 & Q1 & L1).
    destruct (IH s1 C1 Q1) as (s' & E' & Q' & L' & P' & C').
    exists s'. cbn [run_toggles]. rewrite E. conjs; auto; congruence.
Qed.


(** X8. [clearPassword] leaves [options.encrypted] as it was.  After
    the disposal of an obfuscated secret the flag is still set, and
    [encryptPassword] on a password stored while it is set returns
    without obfuscating it. *)
Theorem flag_survives_dispose (s : state) :
  consistent s ->
  exists s1,
    run (clearPassword random_seq getpid time0) s = Some s1 /\
    encrypted s1 = encrypted s /\
    (encrypted s <> 0 -> forall b,
       run (encryptPassword random_seq getpid time0) (set_password (Some b) s1)
       = Some (set_password (Some b) s1)).
Proof.
  intros C. destruct (clear_consistent random_seq getpid time0 s C)
    as (s1 & E & _ & _ & _ & He & _).
  exists s1. unfold run. rewrite E. conjs; auto.
  intros Hne b. rewrite encrypt_noop; [reflexivity |]. left. cbn. now rewrite He.
Qed.

(** X9. With a pad stored, the loops run to the stored length
    whatever block [options.password] points to: on a block shorter
    than that, [encryptPassword] and [decryptPassword] go beyond its
    end. *)
Theorem short_block_overrun (s : state) (b p : buffer) :
  password s = Some b -> passwordPad s = Some p ->
  (List.length b < passwordLen s)%nat ->
  (encrypted s = 0 -> run (encryptPassword random_seq getpid time0) s = None) /\
  (encrypted s <> 0 -> run decryptPassword s = None).
Proof.
  intros Hb Hp Hlen.
  split; intros He; unfold run.
  - now rewrite (encrypt_short_block random_seq getpid time0 s b p He Hb Hp Hlen).
  - apply Z.eqb_neq in He.
    unfold decryptPassword. unfold bind at 1. unfold get at 1. unfold bind at 1. unfold get at 1.
    unfold bind at 1. unfold get at 1.
    rewrite He, Hb, Hp. cbn [is_null orb].
    unfold bind at 1. unfold get at 1.
    unfold bind at 1.
    change 0%nat with (List.length (@nil Z)).
    rewrite (xor_loop_overrun (passwordLen s) [] b [] p);
      [reflexivity | cbn [app]; first [lia | assumption] ..].
Qed.


Lemma encrypt_generator (s s' : state) :
  consistent s -> needSeed s = 0 ->
  encryptPassword random_seq getpid time0 s = Some (tt, s') ->
  needSeed s' = 0 /\ rand_seed s' = rand_seed s /\ (rand_count s <= rand_count s')%nat.
Proof.
  intros C Hs E. pose proof C as [C1 C2 C3 C4 C5].
  destruct (passwordPad s) as [p |] eqn:Hp.
  - destruct (encrypt_keeps_pad s p C Hp) as (s1 & E1 & _ & _ & _ & _ & G).
    rewrite E1 in E. apply some_eq in E. injection E as <-.
    destruct (G Hs) as (G1 & G2 & G3). conjs; auto. lia.
  - destruct (Z.eq_dec (encrypted s) 0) as [He | He];
      [| rewrite encrypt_noop in E by (now left); apply some_eq in E; injection E as <-;
         conjs; auto].
    destruct (password s) as [b |] eqn:Hb;
      [| rewrite encrypt_noop in E by (now right); apply some_eq in E; injection E as <-;
         conjs; auto].
    assert (Hplain : plaintext s = Some b) by (unfold plaintext; now rewrite Hb, He).
    destruct (C5 b Hplain) as (n & Hn & _).
    rewrite (encrypt_fresh random_seq getpid time0 s b n He Hb Hp Hn) in E.
    rewrite (seeded_idle getpid time0 s Hs) in E.
    apply some_eq in E. injection E as <-. cbn. conjs; auto. lia.
Qed.

Lemma clear_generator (s s' : state) :
  consistent s -> needSeed s = 0 ->
  clearPassword random_seq getpid time0 s = Some (tt, s') ->
  needSeed s' = 0 /\ rand_seed s' = rand_seed s /\ (rand_count s <= rand_count s')%nat.
Proof.
  intros [C1 C2 C3 C4 C5] Hs E.
  destruct (Nat.eq_dec (passwordLen s) 0) as [Hl | Hl].
  - rewrite (clear_empty random_seq getpid time0 s Hl) in E.
    rewrite (seeded_idle getpid time0 s Hs) in E.
    apply some_eq in E. injection E as <-. cbn. conjs; auto.
  - destruct (password s) as [b |] eqn:Hb; [| now elim (C3 Hl)].
    destruct (passwordPad s) as [p |] eqn:Hp; [| elim Hl; now apply C1].
    pose proof (C2 p eq_refl) as Hlen. pose proof (C4 b eq_refl) as Hlb.
    rewrite (clear_with_pad random_seq getpid time0 s b p Hb Hp) in E by lia.
    rewrite (seeded_idle getpid time0 s Hs) in E.
    apply some_eq in E. injection E as <-. cbn. conjs; auto. lia.
Qed.

(** X10. Once [needSeed] is 0 no operation seeds the generator
    again: the seed stays, and the count of values drawn never goes
    back, so every value drawn is a new one of the same sequence. *)
Theorem never_reseeded (s s' : state) :
  consistent s -> needSeed s = 0 ->
  run (encryptPassword random_seq getpid time0) s = Some s' \/
  run decryptPassword s = Some s' \/
  run (clearPassword random_seq getpid time0) s = Some s' ->
  needSeed s' = 0 /\ rand_seed s' = rand_seed s /\ (rand_count s <= rand_count s')%nat.
Proof.
  intros C Hs H. unfold run in H. destruct H as [H | [H | H]].
  - destruct (encryptPassword random_seq getpid time0 s) as [[[] s1] |] eqn:E;
      [| discriminate]. cbn in H. apply some_eq in H. subst s1.
    now apply (encrypt_generator s s').
  - destruct (decrypt_consistent s C) as (s1 & E & _).
    destruct (passwordPad s) as [p |] eqn:Hp.
    + destruct (decrypt_keeps_pad s p C Hp) as (s2 & E2 & _ & _ & _ & _ & G1 & G2 & G3).
      rewrite E2 in H. cbn in H. apply some_eq in H. subst s2.
      rewrite G1, G2, G3. conjs; auto.
    + rewrite decrypt_noop in H by (right; now right). cbn in H. apply some_eq in H.
      subst s'. conjs; auto.
  - destruct (clearPassword random_seq getpid time0 s) as [[[] s1] |] eqn:E;
      [| discriminate]. cbn in H. apply some_eq in H. subst s1.
    now apply (clear_generator s s').
Qed.

End Toggles.

Lemma pad_kept_across_toggles_witness :
  consistent obfuscated /\ passwordPad obfuscated = Some [233; 86; 195; 48] /\
  exists s',
    run_toggles sample_seq sample_pid sample_time
      [Reveal; Protect; Protect; Reveal; Reveal; Protect] obfuscated = Some s' /\
    passwordPad s' = Some [233; 86; 195; 48] /\
    passwordLen s' = passwordLen obfuscated /\
    plaintext s' = plaintext obfuscated /\ consistent s'.
Proof.
  exact (conj consistent_obfuscated (conj eq_refl
           (pad_kept_across_toggles sample_seq sample_pid sample_time
              [Reveal; Protect; Protect; Reveal; Reveal; Protect] obfuscated
              [233; 86; 195; 48] consistent_obfuscated eq_refl))).
Defined.

Lemma flag_survives_dispose_witness :
  consistent obfuscated /\
  exists s1,
    run (clearPassword sample_seq sample_pid sample_time) obfuscated = Some s1 /\
    encrypted s1 = encrypted obfuscated /\
    (encrypted obfuscated <> 0 -> forall b,
       run (encryptPassword sample_seq sample_pid sample_time) (set_password (Some b) s1)
       = Some (set_password (Some b) s1)).
Proof.
  exact (conj consistent_obfuscated
           (flag_survives_dispose sample_seq sample_pid sample_time obfuscated
              consistent_obfuscated)).
Defined.

Lemma short_block_overrun_witness :
  password short_state = Some [104; 105; 0] /\
  passwordPad short_state = Some [233; 86; 195; 48] /\
  (List.length [104; 105; 0] < passwordLen short_state)%nat /\
  run (encryptPassword sample_seq sample_pid sample_time) short_state = None.
Proof.
  assert (L : (List.length [104; 105; 0] < passwordLen short_state)%nat) by (cbn; lia).
  exact (conj eq_refl (conj eq_refl (conj L
           (proj1 (short_block_overrun sample_seq sample_pid sample_time short_state
                     [104; 105; 0] [233; 86; 195; 48] eq_refl eq_refl L) eq_refl)))).
Defined.

Lemma never_reseeded_witness :
  consistent obfuscated /\ needSeed obfuscated = 0 /\
  run decryptPassword obfuscated = Some revealed /\
  needSeed revealed = 0 /\ rand_seed revealed = rand_seed obfuscated /\
  (rand_count obfuscated <= rand_count revealed)%nat.
Proof.
  exact (conj consistent_obfuscated (conj eq_refl (conj eq_refl
           (never_reseeded sample_seq sample_pid sample_time obfuscated revealed
              consistent_obfuscated eq_refl (or_intror (or_introl eq_refl)))))).
Defined.

End ToggleFacts.
